(** * Tic-tac-toe game engine: status computation, moves, resets, score load

    A shallow embedding of [src/components/TicTacToeApp.tsx].  The React
    component keeps three state cells ([board], [nextPlayer], [score]); its
    handlers are modelled as functions on a record of those three cells.

    Conventions of the embedding:
    - a [Cell] is [Player | null]: [None] is [null];
    - reading an array position gives a [Cell] or [undefined]: the result of
      a read is an [option Cell] whose [None] is [undefined];
    - the win counts are JavaScript numbers, that is binary64 values: a
      finite one is kept as the integer multiple of 2^-1074 that it is, and
      every sum and every number literal is rounded to the nearest such
      value, ties to the even one. *)

From Stdlib Require Import ZArith String Ascii.
From stdpp Require Import base decidable option list gmap.

Local Open Scope nat_scope.

(** ** Data model *)

Inductive Player : Set := X | O.

Global Instance Player_eq_dec : EqDecision Player.
Proof. solve_decision. Defined.

(** [type Cell = Player | null] *)
Definition Cell : Set := option Player.

(** A winning line, [[number, number, number]]. *)
Definition Line : Set := (nat * nat * nat)%type.

Inductive GameStatus : Set :=
| IN_PROGRESS (next : Player)
| WON (winner : Player) (line : Line)
| DRAW.

Definition WIN_LINES : list Line :=
  [ (0, 1, 2);
    (3, 4, 5);
    (6, 7, 8);
    (0, 3, 6);
    (1, 4, 7);
    (2, 5, 8);
    (0, 4, 8);
    (2, 4, 6) ].

(** ** Reading the board *)

(** The value of [board[i]] for a non-negative integer [i]. *)
Definition read (board : list Cell) (i : nat) : option Cell := board !! i.

(** [v === w] on values read from the board. *)
Definition strict_eq (v w : option Cell) : bool := bool_decide (v = w).

(** The test of one line inside the loop of [computeStatus]:
    [board[a] && board[a] === board[b] && board[a] === board[c]];
    when it succeeds the winner is [board[a]]. *)
Definition line_winner (board : list Cell) (line : Line) : option Player :=
  let '(a, b, c) := line in
  match read board a with
  | Some (Some p) =>
      if strict_eq (read board a) (read board b)
         && strict_eq (read board a) (read board c)
      then Some p else None
  | _ => None
  end.

(** The [for (const line of WIN_LINES)] loop: the first line that passes the
    test, with its winner. *)
Fixpoint first_win (board : list Cell) (lines : list Line)
  : option (Player * Line) :=
  match lines with
  | [] => None
  | line :: rest =>
      match line_winner board line with
      | Some w => Some (w, line)
      | None => first_win board rest
      end
  end.

(** [board.every((c) => c !== null)] *)
Definition every_non_null (board : list Cell) : bool :=
  forallb (fun c : Cell => bool_decide (c <> None)) board.

Definition computeStatus (board : list Cell) (nextPlayer : Player) : GameStatus :=
  match first_win board WIN_LINES with
  | Some (w, line) => WON w line
  | None =>
      if every_non_null board then DRAW else IN_PROGRESS nextPlayer
  end.

Definition otherPlayer (p : Player) : Player :=
  match p with X => O | O => X end.

(** ** Engine state *)

(** A binary64 value other than NaN.  Every finite binary64 value is an
    integer multiple of 2^-1074, the least positive one: [Finite k] is the
    value k * 2^-1074.  The two zeros are one value here (the component
    never divides by a score), and there is no NaN: a JSON text has none,
    and [x + 1] is none when [x] is none. *)
Inductive number : Set :=
| Finite (k : Z)
| PlusInfinity
| MinusInfinity.

(** The integer nearest to p / d for a positive [d], the even one of two
    that are as near. *)
Definition nearest_even (p d : Z) : Z :=
  let q := (p / d)%Z in
  match (2 * (p mod d) ?= d)%Z with
  | Lt => q
  | Gt => (q + 1)%Z
  | Eq => if Z.even q then q else (q + 1)%Z
  end.

(** The binary logarithm of the spacing of the binary64 values around the
    multiple [q] of 2^-1074: 53 significant bits are kept, and below 2^53
    every multiple is a value. *)
Definition grid_shift (q : Z) : Z := Z.max 0 (Z.log2 q - 52).

(** The magnitude of the binary64 value nearest to p / d, in multiples of
    2^-1074, for [p] not negative and [d] positive. *)
Definition round_magnitude (p d : Z) : Z :=
  let sh := grid_shift (p / d) in
  (nearest_even p (d * 2 ^ sh) * 2 ^ sh)%Z.

(** The binary64 value nearest to p / d, in multiples of 2^-1074: from
    2^1024 on the rounded magnitude overflows to an infinity. *)
Definition round64 (p d : Z) : number :=
  let m := round_magnitude (Z.abs p) d in
  if (2 ^ 2098 <=? m)%Z
  then (if (p <? 0)%Z then MinusInfinity else PlusInfinity)
  else Finite (Z.sgn p * m).

(** The whole number [n] as a multiple of 2^-1074; it is a binary64 value
    when [n] is at most 2^53 in magnitude. *)
Definition whole (n : Z) : number := Finite (n * 2 ^ 1074).

(** [x + 1] *)
Definition plus_one (x : number) : number :=
  match x with
  | Finite k => round64 (k + 2 ^ 1074) 1
  | PlusInfinity => PlusInfinity
  | MinusInfinity => MinusInfinity
  end.

Global Arguments round64 : simpl never.
Global Arguments whole : simpl never.
Global Arguments plus_one : simpl never.

(** [x <= y] *)
Definition number_le (x y : number) : Prop :=
  match x, y with
  | MinusInfinity, _ => True
  | _, PlusInfinity => True
  | Finite a, Finite b => (a <= b)%Z
  | _, _ => False
  end.

(** [Finite k] is a binary64 value: below 2^1024 in magnitude and with no
    more than 53 significant bits. *)
Definition is_double (x : number) : Prop :=
  match x with
  | Finite k =>
      (Z.abs k < 2 ^ 2098)%Z
      /\ (Z.abs k mod 2 ^ grid_shift (Z.abs k))%Z = 0%Z
  | _ => True
  end.

Record Score : Set := mkScore { score_X : number; score_O : number }.

Definition score_get (s : Score) (p : Player) : number :=
  match p with X => score_X s | O => score_O s end.

(** [{ ...prev, [p]: v }] *)
Definition score_with (prev : Score) (p : Player) (v : number) : Score :=
  match p with
  | X => mkScore v (score_O prev)
  | O => mkScore (score_X prev) v
  end.

Record State : Set := mkState {
  board : list Cell;
  nextPlayer : Player;
  score : Score
}.

Definition setBoard (b : list Cell) (s : State) : State :=
  mkState b (nextPlayer s) (score s).
Definition setNextPlayer (p : Player) (s : State) : State :=
  mkState (board s) p (score s).
Definition setScore (f : Score -> Score) (s : State) : State :=
  mkState (board s) (nextPlayer s) (f (score s)).

(** [Array.from({ length: 9 }, () => null)] *)
Definition empty_board : list Cell := replicate 9 None.

Definition zero_score : Score := mkScore (Finite 0) (Finite 0).

(** The state of the component when it is mounted. *)
Definition initial_state : State := mkState empty_board X zero_score.

(** [status], the memoised [computeStatus(board, nextPlayer)]. *)
Definition status (s : State) : GameStatus :=
  computeStatus (board s) (nextPlayer s).

(** [resetRound(startingPlayer = nextPlayer)]: [None] is the call without
    argument. *)
Definition resetRound (startingPlayer : option Player) (s : State) : State :=
  let sp := default (nextPlayer s) startingPlayer in
  setNextPlayer sp (setBoard empty_board s).

Definition resetAll (s : State) : State :=
  resetRound (Some X) (setScore (fun _ => zero_score) s).

(** The value of [board[index]] for an arbitrary integer [index]: negative
    and too large indices read [undefined]. *)
Definition read_at (board : list Cell) (index : Z) : option Cell :=
  if (index <? 0)%Z then None else read board (Z.to_nat index).

(** [handleSquareClick(index)].  The two early returns come first; the
    assignment [newBoard[index] = ...] is reached only when [board[index]]
    is [null], hence with [index] inside the array. *)
Definition handleSquareClick (index : Z) (s : State) : State :=
  if negb (bool_decide (read_at (board s) index = Some None)) then s
  else
    match status s with
    | IN_PROGRESS turn =>
        let newBoard := <[Z.to_nat index := Some turn]> (board s) in
        let s1 := setBoard newBoard s in
        let upcomingNext := otherPlayer turn in
        let newStatus := computeStatus newBoard upcomingNext in
        let s2 :=
          match newStatus with
          | WON winner _ =>
              setScore (fun prev =>
                          score_with prev winner
                                     (plus_one (score_get prev winner))) s1
          | _ => s1
          end in
        match newStatus with
        | IN_PROGRESS _ => setNextPlayer upcomingNext s2
        | _ => setNextPlayer upcomingNext s2
        end
    | _ => s
    end.

(** ** JavaScript values and exceptions met by the score loader *)

(** A JavaScript string, as its sequence of UTF-16 code units. *)
Definition jsstring : Set := list N.

(** The code units of a literal written with ASCII characters. *)
Definition js (s : string) : jsstring :=
  map N_of_ascii (list_ascii_of_string s).

Definition quote : N := 34.

(** [js] with every apostrophe standing for a double quote, to write JSON
    texts legibly. *)
Definition jq (s : string) : jsstring :=
  map (fun c => if (c =? 39)%N then quote else c) (js s).

#[warnings="-register-all"]
Inductive jsval : Set :=
| JNull
| JBool (b : bool)
| JNum (n : number)
| JStr (s : jsstring)
| JArr (items : list jsval)
| JObj (members : list (jsstring * jsval)).

Inductive exn : Set := SyntaxError | TypeError | SecurityError.

(** The completion of a computation that may throw. *)
Inductive outcome (A : Type) : Type :=
| Returns (a : A)
| Throws (e : exn).
Arguments Returns {A} a.
Arguments Throws {A} e.

Global Instance outcome_ret : MRet outcome := fun A a => Returns a.
Global Instance outcome_bind : MBind outcome := fun A B f m =>
  match m with
  | Returns a => f a
  | Throws e => Throws e
  end.

(** [try { body } catch { }] around a state update: a throw leaves the
    state as it was. *)
Definition try_catch_ignore (s : State) (body : outcome State) : State :=
  match body with
  | Returns s' => s'
  | Throws _ => s
  end.

(** ** [JSON.parse]

    The runtime's parser, following the JSON grammar of ECMA-262 (24.5.1):
    white space is tab, line feed, carriage return and space; numbers have
    no leading zero and no leading plus; strings admit the nine escapes and
    no raw control character; nothing but white space follows the value. *)
Module JSON.

Local Open Scope N_scope.

Definition is_ws (c : N) : bool :=
  (c =? 9) || (c =? 10) || (c =? 13) || (c =? 32).

Fixpoint skip_ws (s : jsstring) : jsstring :=
  match s with
  | c :: rest => if is_ws c then skip_ws rest else s
  | [] => []
  end.

Fixpoint strip_prefix (pre s : jsstring) : option jsstring :=
  match pre, s with
  | [], _ => Some s
  | p :: pre', c :: s' => if p =? c then strip_prefix pre' s' else None
  | _ :: _, [] => None
  end.

Definition is_digit (c : N) : bool := (48 <=? c) && (c <=? 57).

(** The longest run of decimal digits at the head, as digit values. *)
Fixpoint take_digits (s : jsstring) : list N * jsstring :=
  match s with
  | c :: rest =>
      if is_digit c
      then let '(ds, r) := take_digits rest in ((c - 48) :: ds, r)
      else ([], s)
  | [] => ([], [])
  end.

Definition digits_value (ds : list N) : N :=
  fold_left (fun acc d => 10 * acc + d) ds 0.

(** The number that the literal of value [m * 10^e] denotes: the binary64
    value nearest to it. *)
Definition decimal (m e : Z) : number :=
  if (0 <=? e)%Z
  then round64 (m * 10 ^ e * 2 ^ 1074) 1
  else round64 (m * 2 ^ 1074) (10 ^ (- e)).

Global Arguments decimal : simpl never.

Definition parse_exponent (s : jsstring) : option (Z * jsstring) :=
  match s with
  | c :: rest =>
      if (c =? 101) || (c =? 69) then
        let '(neg, rest1) :=
          match rest with
          | sg :: r =>
              if sg =? 45 then (true, r)
              else if sg =? 43 then (false, r) else (false, rest)
          | [] => (false, rest)
          end in
        match take_digits rest1 with
        | ([], _) => None
        | (ds, rest2) =>
            let e := Z.of_N (digits_value ds) in
            Some (if neg then (- e)%Z else e, rest2)
        end
      else Some (0%Z, s)
  | [] => Some (0%Z, s)
  end.

Definition parse_number (s : jsstring) : option (number * jsstring) :=
  let '(neg, s1) :=
    match s with
    | c :: r => if c =? 45 then (true, r) else (false, s)
    | [] => (false, s)
    end in
  match take_digits s1 with
  | ([], _) => None
  | ((d :: more) as int, s2) =>
      if (d =? 0) && negb (bool_decide (more = [])) then None
      else
        frac ← match s2 with
               | c :: r =>
                   if c =? 46 then
                     match take_digits r with
                     | ([], _) => None
                     | (fs, s3) => Some (fs, s3)
                     end
                   else Some ([], s2)
               | [] => Some ([], s2)
               end;
        let '(fs, s3) := frac in
        ex ← parse_exponent s3;
        let '(e, s4) := ex in
        let m := Z.of_N (digits_value (int ++ fs)) in
        Some (decimal (if neg then (- m)%Z else m)
                      (e - Z.of_nat (length fs)),
              s4)
  end.

Definition hex_value (c : N) : option N :=
  if is_digit c then Some (c - 48)
  else if (97 <=? c) && (c <=? 102) then Some (c - 87)
  else if (65 <=? c) && (c <=? 70) then Some (c - 55)
  else None.

Definition escape (c : N) : option N :=
  if c =? quote then Some quote
  else if c =? 92 then Some 92
  else if c =? 47 then Some 47
  else if c =? 98 then Some 8
  else if c =? 102 then Some 12
  else if c =? 110 then Some 10
  else if c =? 114 then Some 13
  else if c =? 116 then Some 9
  else None.

(** The characters of a string literal after its opening quote, up to and
    including the closing quote. *)
Fixpoint parse_string (s : jsstring) : option (jsstring * jsstring) :=
  match s with
  | [] => None
  | c :: rest =>
      if c =? quote then Some ([], rest)
      else if c =? 92 then
        match rest with
        | e :: rest1 =>
            if e =? 117 then
              match rest1 with
              | h1 :: h2 :: h3 :: h4 :: rest2 =>
                  a ← hex_value h1; b ← hex_value h2;
                  c' ← hex_value h3; d ← hex_value h4;
                  r ← parse_string rest2;
                  Some ((((a * 16 + b) * 16 + c') * 16 + d) :: r.1, r.2)
              | _ => None
              end
            else
              u ← escape e;
              r ← parse_string rest1;
              Some (u :: r.1, r.2)
        | [] => None
        end
      else if c <? 32 then None
      else r ← parse_string rest; Some (c :: r.1, r.2)
  end.

(** The value at the head of [s] and what follows it.  [fuel] bounds the
    nesting of calls; beyond twice the length of the text more fuel changes
    no result ([parse_fuel_enough]). *)
Fixpoint parse_value (fuel : nat) (s : jsstring) : option (jsval * jsstring) :=
  match fuel with
  | 0%nat => None
  | S fuel' =>
      match skip_ws s with
      | [] => None
      | c :: rest =>
          if c =? 123 then
            match skip_ws rest with
            | c' :: rest' =>
                if c' =? 125 then Some (JObj [], rest')
                else parse_members fuel' rest []
            | [] => None
            end
          else if c =? 91 then
            match skip_ws rest with
            | c' :: rest' =>
                if c' =? 93 then Some (JArr [], rest')
                else parse_elements fuel' rest []
            | [] => None
            end
          else if c =? quote then
            r ← parse_string rest; Some (JStr r.1, r.2)
          else if c =? 116 then
            r ← strip_prefix (js "true") (c :: rest); Some (JBool true, r)
          else if c =? 102 then
            r ← strip_prefix (js "false") (c :: rest); Some (JBool false, r)
          else if c =? 110 then
            r ← strip_prefix (js "null") (c :: rest); Some (JNull, r)
          else
            r ← parse_number (c :: rest); Some (JNum r.1, r.2)
      end
  end
with parse_elements (fuel : nat) (s : jsstring) (acc : list jsval)
  : option (jsval * jsstring) :=
  match fuel with
  | 0%nat => None
  | S fuel' =>
      r ← parse_value fuel' s;
      match skip_ws r.2 with
      | c :: rest =>
          if c =? 44 then parse_elements fuel' rest (r.1 :: acc)
          else if c =? 93 then Some (JArr (rev (r.1 :: acc)), rest)
          else None
      | [] => None
      end
  end
with parse_members (fuel : nat) (s : jsstring) (acc : list (jsstring * jsval))
  : option (jsval * jsstring) :=
  match fuel with
  | 0%nat => None
  | S fuel' =>
      match skip_ws s with
      | q :: s1 =>
          if q =? quote then
            k ← parse_string s1;
            match skip_ws k.2 with
            | colon :: s2 =>
                if colon =? 58 then
                  r ← parse_value fuel' s2;
                  match skip_ws r.2 with
                  | c :: rest =>
                      if c =? 44
                      then parse_members fuel' rest ((k.1, r.1) :: acc)
                      else if c =? 125
                      then Some (JObj (rev ((k.1, r.1) :: acc)), rest)
                      else None
                  | [] => None
                  end
                else None
            | [] => None
            end
          else None
      | [] => None
      end
  end.

(** [JSON.parse(text)]: the value, or a [SyntaxError]. *)
Definition parse (text : jsstring) : outcome jsval :=
  match parse_value (2 * length text + 2) text with
  | Some (v, rest) =>
      match skip_ws rest with
      | [] => Returns v
      | _ :: _ => Throws SyntaxError
      end
  | None => Throws SyntaxError
  end.

End JSON.

(** ** The score loader (the first effect of the component) *)

(** What [localStorage.getItem('ttt_score')] can do: throw because storage is
    denied, return [null] because nothing is stored, or return the text. *)
Inductive stored : Set :=
| Denied
| Absent
| Text (raw : jsstring).

Definition getItem (st : stored) : outcome (option jsstring) :=
  match st with
  | Denied => Throws SecurityError
  | Absent => Returns None
  | Text raw => Returns (Some raw)
  end.

(** The member of an object that a key names: of several members with one
    name, [JSON.parse] keeps the last. *)
Definition last_member (members : list (jsstring * jsval)) (key : jsstring)
  : option jsval :=
  snd <$> List.find (fun kv => bool_decide (kv.1 = key)) (rev members).

(** [parsed.X] and [parsed.O]: a [TypeError] on [null], the member of an
    object, and [undefined] ([None]) on the other values, none of which has
    a property of these names. *)
Definition get_property (v : jsval) (key : jsstring) : outcome (option jsval) :=
  match v with
  | JNull => Throws TypeError
  | JObj members => Returns (last_member members key)
  | _ => Returns None
  end.

(** [typeof v === 'number' ? v : 0] *)
Definition number_or_zero (v : option jsval) : number :=
  match v with
  | Some (JNum n) => n
  | _ => Finite 0
  end.

(** The body of the [try] block. *)
Definition load_body (st : stored) (s : State) : outcome State :=
  raw ← getItem st;
  match raw with
  | Some ((_ :: _) as text) =>
      parsed ← JSON.parse text;
      x ← get_property parsed (js "X");
      o ← get_property parsed (js "O");
      mret (setScore (fun _ => mkScore (number_or_zero x) (number_or_zero o)) s)
  | _ => mret s
  end.

Definition load_effect (st : stored) (s : State) : State :=
  try_catch_ignore s (load_body st s).

(** The score the component holds once the loader has run on mount. *)
Definition loadScore (st : stored) : Score :=
  score (load_effect st initial_state).

(** ** Sequences of engine operations *)

Inductive Op : Set :=
| ApplyMove (index : Z)
| ResetRound (startingPlayer : option Player)
| ResetAll
| LoadScore (st : stored).

Definition step (s : State) (op : Op) : State :=
  match op with
  | ApplyMove index => handleSquareClick index s
  | ResetRound sp => resetRound sp s
  | ResetAll => resetAll s
  | LoadScore st => load_effect st s
  end.

Definition run (ops : list Op) (s : State) : State := fold_left step ops s.

(** The states that play reaches from an empty board, whoever starts and
    whatever the score, by moves alone. *)
Inductive reachable : State -> Prop :=
| reach_empty (starter : Player) (sc : Score) :
    reachable (mkState empty_board starter sc)
| reach_move (s : State) (index : Z) :
    reachable s -> reachable (handleSquareClick index s).

(** ** Notions used in the statements *)

(** All three cells of [line] hold the mark of [p]. *)
Definition line_held (board : list Cell) (line : Line) (p : Player) : Prop :=
  read board line.1.1 = Some (Some p)
  /\ read board line.1.2 = Some (Some p)
  /\ read board line.2 = Some (Some p).

(** All three cells of [line] are non-empty and equal. *)
Definition line_full (board : list Cell) (line : Line) : Prop :=
  exists p, line_held board line p.

(** The board at the end of the drawn game X:0, O:1, X:2, O:4, X:3, O:5,
    X:7, O:6, X:8. *)
Definition drawn_board : list Cell :=
  [ Some X; Some O; Some X;
    Some X; Some O; Some O;
    Some O; Some X; Some X ].

(** The score after a move that led to the status [st]. *)
Definition score_after (st : GameStatus) (prev : Score) : Score :=
  match st with
  | WON winner _ => score_with prev winner (plus_one (score_get prev winner))
  | _ => prev
  end.

(** The round X:0, O:3, X:1, O:4, X:2 played from an empty board on which
    X is to move, with the score [sc]. *)
Definition top_row_round (sc : Score) : State :=
  run [ApplyMove 0; ApplyMove 3; ApplyMove 1; ApplyMove 4; ApplyMove 2]
      (mkState empty_board X sc).

(** The drawn round X:0, O:1, X:2, O:4, X:3, O:5, X:7, O:6, X:8. *)
Definition drawn_round (sc : Score) : State :=
  run [ApplyMove 0; ApplyMove 1; ApplyMove 2; ApplyMove 4; ApplyMove 3;
       ApplyMove 5; ApplyMove 7; ApplyMove 6; ApplyMove 8]
      (mkState empty_board X sc).

(** The field [key] of the parsed record: the member of that name when the
    parsed value is an object that has one, and nothing otherwise. *)
Definition field (parsed : jsval) (key : jsstring) : option jsval :=
  match parsed with
  | JObj members => last_member members key
  | _ => None
  end.

(** A stored record whose field O is not a number. *)
Definition half_valid_record : jsstring := jq "{'X': 3, 'O': 'bad'}".

(** A parsed value that is a number is a binary64 value. *)
Definition double_if_number (v : jsval) : Prop :=
  match v with
  | JNum n => is_double n
  | _ => True
  end.

(** The numbers among the members of a parsed object are binary64
    values. *)
Definition members_double (v : jsval) : Prop :=
  match v with
  | JObj members => Forall (fun kv => double_if_number kv.2) members
  | _ => True
  end.

(** Neither player's score is lower in [b] than in [a]. *)
Definition score_le (a b : Score) : Prop :=
  number_le (score_X a) (score_X b) /\ number_le (score_O a) (score_O b).

(** Both scores are binary64 values. *)
Definition score_doubles (sc : Score) : Prop :=
  is_double (score_X sc) /\ is_double (score_O sc).


(** The operations that play a round: moves and round resets. *)
Definition plays_round (op : Op) : Prop :=
  match op with
  | ApplyMove _ | ResetRound _ => True
  | ResetAll | LoadScore _ => False
  end.



(** The stored record with a negative count for X. *)
Definition negative_record : jsstring := jq "{'X': -1}".

(** [line] is fully occupied by the mark of [p]. *)
Definition held_by (board : list Cell) (p : Player) (line : Line) : bool :=
  bool_decide (line_winner board line = Some p).

(** [line] is fully occupied by the mark of one player. *)
Definition is_full (board : list Cell) (line : Line) : bool :=
  match line_winner board line with
  | Some _ => true
  | None => false
  end.

(** The winning lines fully occupied by one player's mark. *)
Definition full_lines (board : list Cell) : list Line :=
  List.filter (is_full board) WIN_LINES.

(** The number of cells that hold the mark of [p]. *)
Definition marks (p : Player) (board : list Cell) : nat :=
  length (List.filter (fun c : Cell => bool_decide (c = Some p)) board).

(** All boards of [n] cells. *)
Fixpoint all_boards (n : nat) : list (list Cell) :=
  match n with
  | 0 => [[]]
  | S n' =>
      flat_map (fun b => [None :: b; Some X :: b; Some O :: b]) (all_boards n')
  end.

(** A player with at most five marks holds at most two winning lines. *)
Definition five_marks_two_lines (board : list Cell) : bool :=
  forallb (fun p =>
             (5 <? marks p board)
             || (length (List.filter (held_by board p) WIN_LINES) <=? 2))
          [X; O].

(** The balance of marks when [starter] moved first. *)
Definition balanced (starter : Player) (s : State) : Prop :=
  (nextPlayer s = starter
   /\ marks starter (board s) = marks (otherPlayer starter) (board s))
  \/ (nextPlayer s = otherPlayer starter
      /\ marks starter (board s) = S (marks (otherPlayer starter) (board s))).

(** At most two full lines, all held by one player. *)
Definition few_full_lines (board : list Cell) : Prop :=
  length (full_lines board) <= 2
  /\ forall l1 l2 p1 p2,
      l1 ∈ WIN_LINES -> l2 ∈ WIN_LINES ->
      line_held board l1 p1 -> line_held board l2 p2 -> p1 = p2.

Definition play_invariant (s : State) : Prop :=
  length (board s) = 9
  /\ (exists starter, balanced starter s)
  /\ few_full_lines (board s).

(** The round X:1, O:4, X:2, O:5, X:3, O:7, X:6, O:8, X:0: the last move
    completes the top row and the left column at once. *)
Definition double_win_state : State :=
  run (map ApplyMove [1; 4; 2; 5; 3; 7; 6; 8; 0]%Z) initial_state.

(** ** The texts of the page *)

(** A player inside a template literal. *)
Definition player_text (p : Player) : jsstring :=
  match p with
  | X => js "X"
  | O => js "O"
  end.

Definition getStatusText (status : GameStatus) : jsstring :=
  match status with
  | IN_PROGRESS next => js "Turn: " ++ player_text next
  | WON winner _ => js "Winner: " ++ player_text winner
  | DRAW => js "Draw"
  end.

Definition getSubtitleText (status : GameStatus) : jsstring :=
  match status with
  | IN_PROGRESS _ => js "Place a mark to continue."
  | WON _ _ => js "Nice play. Start a new round?"
  | DRAW => js "No more moves. Start a new round?"
  end.

(** The decimal digits of [n], most significant first, on top of [acc];
    [fuel] bounds the number of digits. *)
Fixpoint digits_loop (fuel : nat) (n : N) (acc : list N) : list N :=
  match fuel with
  | 0%nat => acc
  | S fuel' =>
      if (n <? 10)%N then n :: acc
      else digits_loop fuel' (n / 10)%N ((n mod 10)%N :: acc)
  end.

Definition decimal_digits (n : N) : list N :=
  digits_loop (S (N.to_nat (N.log2 n))) n [].

(** The decimal numeral of an integer: the text that [Number::toString]
    gives for the whole numbers of magnitude below 2^53. *)
Definition integer_text (z : Z) : jsstring :=
  (if (z <? 0)%Z then js "-" else [])
  ++ map (fun d => (48 + d)%N) (decimal_digits (Z.abs_N z)).

(** [squareLabel(i)] for an integer [i]: [Math.floor(i / 3)] rounds down
    and [i % 3] has the sign of [i]. *)
Definition squareLabel (i : Z) : jsstring :=
  let row := (i / 3 + 1)%Z in
  let col := (Z.rem i 3 + 1)%Z in
  js "Row " ++ integer_text row ++ js ", Column " ++ integer_text col.

(** ** What the component renders for the board *)

(** [winningSet]: the cells of the winning line, and no cell unless the
    status is [WON]. *)
Definition winningSet (st : GameStatus) : gset nat :=
  match st with
  | WON _ (a, b, c) => list_to_set [a; b; c]
  | _ => ∅
  end.

(** What the callback of [board.map] computes for one square, its list of
    style classes apart. *)
Record Square : Set := mkSquare {
  isWinning : bool;
  isDisabled : bool;
  label : jsstring;
  mark : jsstring
}.

Definition renderSquare (s : State) (i : nat) (cell : Cell) : Square :=
  mkSquare
    (bool_decide (i ∈ winningSet (status s)))
    (bool_decide (cell <> None)
     || negb (match status s with IN_PROGRESS _ => true | _ => false end))
    (match cell with
     | Some p => squareLabel (Z.of_nat i) ++ js ": " ++ player_text p
     | None =>
         squareLabel (Z.of_nat i) ++ js ": empty. Place "
         ++ player_text (match status s with
                         | IN_PROGRESS next => next
                         | _ => nextPlayer s
                         end)
         ++ js "."
     end)
    (match cell with
     | Some p => player_text p
     | None => []
     end).

Definition renderBoard (s : State) : list Square :=
  imap (renderSquare s) (board s).

(** ** The score saver (the second effect of the component) *)

(** The text of a number inside [JSON.stringify]: [null] for an infinity,
    and for a whole number of magnitude up to 2^53 its decimal numeral,
    which is then the shortest text that reads back as the same value.
    [None] stands for the numbers whose text this embedding does not give:
    the other finite ones. *)
Definition stringify_number (x : number) : option jsstring :=
  match x with
  | Finite k =>
      if ((k mod 2 ^ 1074 =? 0) && (Z.abs (k / 2 ^ 1074) <=? 2 ^ 53))%Z
      then Some (integer_text (k / 2 ^ 1074))
      else None
  | PlusInfinity | MinusInfinity => Some (js "null")
  end.

(** [JSON.stringify(score)]: the members X and O in this order, which is
    the order in which every score object of the component is built. *)
Definition stringify_score (sc : Score) : option jsstring :=
  x ← stringify_number (score_X sc);
  o ← stringify_number (score_O sc);
  Some (jq "{'X':" ++ x ++ jq ",'O':" ++ o ++ js "}").

(** The saving effect on the store: [setItem] replaces the stored text, or
    throws (storage denied or full) when the store is not [writable], and
    the throw is ignored. *)
Definition save_effect (writable : bool) (sc : Score) (st : stored)
  : option stored :=
  text ← stringify_score sc;
  Some (if writable then Text text else st).

(** The number of empty cells. *)
Definition empties (board : list Cell) : nat :=
  length (List.filter (fun c : Cell => bool_decide (c = None)) board).

(** A natural number of wins. *)
Definition is_count (x : number) : Prop :=
  (exists k : nat, x = whole (Z.of_nat k)) /\ is_double x.

(** A character that can follow a number: no digit, point or exponent. *)
Definition ends_number (c : N) : Prop :=
  JSON.is_digit c = false /\ c <> 46%N /\ c <> 101%N /\ c <> 69%N.

(** ** Properties of binary64 rounding *)

Local Open Scope Z_scope.

Lemma nearest_even_bounds p d :
  0 < d -> p / d <= nearest_even p d <= p / d + 1.
Proof.
  intros Hd. unfold nearest_even.
  destruct (2 * (p mod d) ?= d); [destruct (Z.even (p / d))| |]; lia.
Qed.

Lemma nearest_even_exact p d :
  0 < d -> p mod d = 0 -> nearest_even p d = p / d.
Proof.
  intros Hd Hr. unfold nearest_even. rewrite Hr.
  destruct (Z.compare_spec (2 * 0) d); lia.
Qed.

(** Rounding to the nearest moves by at most half a step. *)
Lemma nearest_even_half p d :
  0 < d -> 2 * (nearest_even p d * d - p) <= d.
Proof.
  intros Hd. unfold nearest_even.
  pose proof (Z.div_mod p d ltac:(lia)) as Hdm.
  pose proof (Z.mod_pos_bound p d Hd) as Hb.
  destruct (Z.compare_spec (2 * (p mod d)) d) as [E|E|E];
    [destruct (Z.even (p / d))| |]; nia.
Qed.

Lemma grid_shift_nonneg q : 0 <= grid_shift q.
Proof. unfold grid_shift. lia. Qed.

Lemma grid_shift_mono p q : p <= q -> grid_shift p <= grid_shift q.
Proof.
  intros H. unfold grid_shift. pose proof (Z.log2_le_mono p q H). lia.
Qed.

Lemma grid_pos q : 0 < 2 ^ grid_shift q.
Proof. apply Z.pow_pos_nonneg; [lia | apply grid_shift_nonneg]. Qed.

Lemma pow2_divide a b : 0 <= a <= b -> (2 ^ a | 2 ^ b).
Proof.
  intros H. exists (2 ^ (b - a)). rewrite <- Z.pow_add_r by lia. f_equal. lia.
Qed.

(** On a positive shift, [p] has 53 significant bits above the grid. *)
Lemma grid_shift_range p :
  0 < grid_shift p ->
  2 ^ 52 * 2 ^ grid_shift p <= p < 2 ^ 53 * 2 ^ grid_shift p.
Proof.
  unfold grid_shift. intros H.
  assert (Hp : 0 < p).
  { destruct (Z.lt_ge_cases 0 p); [done|].
    rewrite Z.log2_nonpos in H by lia. lia. }
  pose proof (Z.log2_spec p Hp) as Hs.
  replace (Z.max 0 (Z.log2 p - 52)) with (Z.log2 p - 52) by lia.
  rewrite <- !Z.pow_add_r by lia.
  replace (52 + (Z.log2 p - 52)) with (Z.log2 p) by lia.
  replace (53 + (Z.log2 p - 52)) with (Z.succ (Z.log2 p)) by lia.
  done.
Qed.

Lemma grid_shift_zero p : grid_shift p = 0 -> p < 2 ^ 53.
Proof.
  unfold grid_shift. intros H.
  destruct (Z.lt_ge_cases 0 p) as [Hp|Hp]; [|lia].
  pose proof (Z.log2_spec p Hp) as [_ Hs].
  eapply Z.lt_le_trans; [exact Hs|]. apply Z.pow_le_mono_r; lia.
Qed.

Lemma round_magnitude_integer p :
  round_magnitude p 1
  = nearest_even p (2 ^ grid_shift p) * 2 ^ grid_shift p.
Proof. unfold round_magnitude. by rewrite Z.div_1_r, Z.mul_1_l. Qed.

Lemma round_magnitude_exact p :
  p mod 2 ^ grid_shift p = 0 -> round_magnitude p 1 = p.
Proof.
  intros H. rewrite round_magnitude_integer.
  rewrite nearest_even_exact by (done || apply grid_pos).
  pose proof (Z.div_mod p (2 ^ grid_shift p)) as Hdm.
  pose proof (grid_pos p). lia.
Qed.

Lemma round_magnitude_bounds p :
  let G := 2 ^ grid_shift p in
  p / G * G <= round_magnitude p 1 <= p / G * G + G
  /\ 2 * (round_magnitude p 1 - p) <= G.
Proof.
  simpl. rewrite round_magnitude_integer.
  pose proof (grid_pos p) as HG.
  pose proof (nearest_even_bounds p _ HG).
  pose proof (nearest_even_half p _ HG). nia.
Qed.

(** A double is rounded to itself. *)
Lemma round64_double k : is_double (Finite k) -> round64 k 1 = Finite k.
Proof.
  intros [Hlt Hgrid]. unfold round64.
  rewrite round_magnitude_exact by done.
  destruct (Z.leb_spec (2 ^ 2098) (Z.abs k)); [lia|]. f_equal. lia.
Qed.

Lemma grid_shift_of_range p sh :
  0 <= sh -> 2 ^ 52 * 2 ^ sh <= p < 2 ^ 53 * 2 ^ sh -> grid_shift p = sh.
Proof.
  intros Hsh Hp. rewrite <- !Z.pow_add_r in Hp by lia.
  assert (Z.log2 p = 52 + sh) as E.
  { apply Z.log2_unique; [lia|]. by replace (Z.succ (52 + sh)) with (53 + sh) by lia. }
  unfold grid_shift. lia.
Qed.

(** Multiples of [G] strictly between two neighbours do not exist. *)
Lemma no_multiple_between G q c :
  0 < G -> q * G < c * G -> c * G < q * G + G -> False.
Proof.
  intros HG H1 H2. replace (q * G + G) with ((q + 1) * G) in H2 by ring.
  apply Z.mul_lt_mono_pos_r in H1, H2; lia.
Qed.

Lemma multiple_of_mod k G : 0 < G -> k mod G = 0 -> k = k / G * G.
Proof. intros HG H. pose proof (Z.div_mod k G). lia. Qed.

(** The magnitude of a double on a coarser grid is on every finer grid. *)
Lemma double_on_finer_grid a p :
  p <= a -> a mod 2 ^ grid_shift a = 0 -> a mod 2 ^ grid_shift p = 0.
Proof.
  intros Hle Ha. apply Z.mod_divide; [pose proof (grid_pos p); lia|].
  apply Z.mod_divide in Ha; [|pose proof (grid_pos a); lia].
  eapply Z.divide_trans; [|exact Ha].
  apply pow2_divide. split; [apply grid_shift_nonneg | by apply grid_shift_mono].
Qed.

(** Rounding does not go below a double that lies below. *)
Lemma round_magnitude_ge k p :
  0 <= k <= p -> k mod 2 ^ grid_shift k = 0 -> k <= round_magnitude p 1.
Proof.
  intros [Hk Hkp] Hgrid.
  destruct (round_magnitude_bounds p) as [[Hlo _] _]. simpl in Hlo.
  pose proof (grid_pos p) as HG. set (G := 2 ^ grid_shift p) in *.
  destruct (Z.le_gt_cases k (p / G * G)) as [Hle|Hgt]; [lia|]. exfalso.
  destruct (Z.eq_dec (grid_shift p) 0) as [E|E].
  { subst G. rewrite E in *. change (2 ^ 0) with 1 in *.
    rewrite Z.div_1_r in Hgt. lia. }
  pose proof (grid_shift_nonneg p).
  destruct (grid_shift_range p ltac:(lia)) as [Hp1 Hp2]. fold G in Hp1, Hp2.
  assert (Hq : 2 ^ 52 <= p / G) by (apply Z.div_le_lower_bound; lia).
  assert (Hsame : grid_shift k = grid_shift p).
  { apply grid_shift_of_range; [lia|]. fold G. nia. }
  rewrite Hsame in Hgrid. fold G in Hgrid.
  pose proof (multiple_of_mod k G HG Hgrid) as Ek.
  pose proof (Z.div_mod p G ltac:(lia)) as Hdm.
  pose proof (Z.mod_pos_bound p G HG) as Hb.
  apply (no_multiple_between G (p / G) (k / G) HG); lia.
Qed.

(** Rounding does not go above a double that lies above. *)
Lemma round_magnitude_le a p :
  0 <= p <= a -> a mod 2 ^ grid_shift a = 0 -> round_magnitude p 1 <= a.
Proof.
  intros [Hp Hpa] Hgrid.
  pose proof (double_on_finer_grid a p Hpa Hgrid) as Ha.
  destruct (round_magnitude_bounds p) as [[_ Hhi] _]. simpl in Hhi.
  pose proof (grid_pos p) as HG. set (G := 2 ^ grid_shift p) in *.
  destruct (Z.eq_dec (p mod G) 0) as [E|E].
  - rewrite round_magnitude_exact by done. lia.
  - pose proof (multiple_of_mod a G HG Ha) as Ea.
    pose proof (Z.div_mod p G ltac:(lia)) as Hdm.
    pose proof (Z.mod_pos_bound p G HG) as Hb.
    assert (p / G < a / G) by nia. nia.
Qed.

(** What rounding gives is on its own grid. *)
Lemma round_magnitude_on_grid p :
  0 <= p ->
  round_magnitude p 1 mod 2 ^ grid_shift (round_magnitude p 1) = 0.
Proof.
  intros Hp. destruct (Z.eq_dec (grid_shift p) 0) as [E|E].
  - rewrite round_magnitude_exact; rewrite E; change (2 ^ 0) with 1;
      apply Z.mod_1_r.
  - pose proof (grid_shift_nonneg p).
    destruct (grid_shift_range p ltac:(lia)) as [Hp1 Hp2].
    destruct (round_magnitude_bounds p) as [[Hlo Hhi] _]. simpl in Hlo, Hhi.
    rewrite round_magnitude_integer in *.
    pose proof (grid_pos p) as HG. set (G := 2 ^ grid_shift p) in *.
    set (n := nearest_even p G) in *.
    assert (Hq1 : 2 ^ 52 <= p / G) by (apply Z.div_le_lower_bound; lia).
    assert (Hq2 : p / G < 2 ^ 53) by (apply Z.div_lt_upper_bound; lia).
    assert (Hn : 2 ^ 52 <= n <= 2 ^ 53) by nia.
    destruct (Z.eq_dec n (2 ^ 53)) as [En|En].
    + rewrite En. unfold G. rewrite <- Z.pow_add_r by lia.
      assert (grid_shift (2 ^ (53 + grid_shift p)) = 1 + grid_shift p) as ->.
      { unfold grid_shift at 1. rewrite Z.log2_pow2 by lia. lia. }
      apply Z.mod_divide; [pose proof (Z.pow_pos_nonneg 2 (1 + grid_shift p)); lia|].
      apply pow2_divide. lia.
    + assert (grid_shift (n * G) = grid_shift p) as ->.
      { apply grid_shift_of_range; [lia|]. fold G. nia. }
      fold G. apply Z.mod_mul. lia.
Qed.

Lemma double_below_max k :
  0 <= k < 2 ^ 2098 -> k mod 2 ^ grid_shift k = 0 ->
  k <= 2 ^ 2098 - 2 ^ 2045.
Proof.
  intros [Hk Hlt] Hgrid.
  assert (E98 : 2 ^ 2098 = 2 ^ 53 * 2 ^ 2045) by (by rewrite <- Z.pow_add_r).
  assert (E97 : 2 ^ 2098 = 2 * (2 ^ 52 * 2 ^ 2045))
    by (rewrite <- Z.pow_add_r by lia; by rewrite <- Z.pow_succ_r).
  pose proof (Z.pow_pos_nonneg 2 2045 ltac:(lia) ltac:(lia)) as HA.
  set (A := 2 ^ 2045) in *.
  destruct (Z.lt_ge_cases k (2 ^ 52 * A)) as [Hs|Hb]; [nia|].
  assert (Hsh : grid_shift k = 2045)
    by (apply grid_shift_of_range; [lia|]; fold A; lia).
  rewrite Hsh in Hgrid. fold A in Hgrid.
  pose proof (multiple_of_mod k A HA Hgrid) as Ek.
  assert (k / A < 2 ^ 53) by nia. nia.
Qed.

(** Adding one to a double gives a double. *)
Lemma plus_one_double x : is_double x -> is_double (plus_one x).
Proof.
  destruct x as [k| |]; [|done..]. intros [Hlt Hgrid]. unfold plus_one, round64.
  set (p := k + 2 ^ 1074).
  assert (HU : 0 < 2 ^ 1074) by (by apply Z.pow_pos_nonneg).
  assert (Hm : round_magnitude (Z.abs p) 1 < 2 ^ 2098).
  { destruct (Z.lt_ge_cases p 0) as [Hneg|Hpos].
    - eapply Z.le_lt_trans; [|exact Hlt].
      apply round_magnitude_le; [lia|done].
    - destruct (round_magnitude_bounds (Z.abs p)) as [_ Hhalf]. simpl in Hhalf.
      assert (Hp : Z.abs p < 2 ^ 2098 - 2 ^ 2044).
      { assert (2 ^ 1074 < 2 ^ 2044) by (apply Z.pow_lt_mono_r; lia).
        assert (2 ^ 2045 = 2 * 2 ^ 2044) by (by rewrite <- Z.pow_succ_r).
        destruct (Z.lt_ge_cases k 0) as [Hk|Hk].
        - assert (2 ^ 2044 < 2 ^ 2097) by (apply Z.pow_lt_mono_r; lia).
          assert (2 ^ 2098 = 2 * 2 ^ 2097) by (by rewrite <- Z.pow_succ_r).
          lia.
        - pose proof (double_below_max k) as Hmax.
          rewrite Z.abs_eq in Hlt, Hgrid by lia.
          specialize (Hmax ltac:(lia) Hgrid). lia. }
      assert (HG : 2 ^ grid_shift (Z.abs p) <= 2 ^ 2045).
      { apply Z.pow_le_mono_r; [lia|]. unfold grid_shift.
        destruct (Z.eq_dec (Z.abs p) 0) as [->|Hnz]; [simpl; lia|].
        assert (Z.log2 (Z.abs p) < 2098); [|lia].
        apply Z.log2_lt_pow2; lia. }
      assert (2 ^ 2045 = 2 * 2 ^ 2044) by (by rewrite <- Z.pow_succ_r).
      lia. }
  destruct (Z.leb_spec (2 ^ 2098) (round_magnitude (Z.abs p) 1)); [lia|].
  assert (Hnn : 0 <= round_magnitude (Z.abs p) 1).
  { destruct (round_magnitude_bounds (Z.abs p)) as [[Hlo _] _]. simpl in Hlo.
    pose proof (grid_pos (Z.abs p)).
    pose proof (Z.div_pos (Z.abs p) (2 ^ grid_shift (Z.abs p))). nia. }
  destruct (Z.eq_dec p 0) as [E0|E0].
  - rewrite E0. change (Z.sgn 0) with 0. rewrite Z.mul_0_l.
    unfold is_double. change (Z.abs 0) with 0.
    split; [by apply Z.pow_pos_nonneg|].
    apply Z.mod_0_l. pose proof (grid_pos 0). lia.
  - unfold is_double.
    replace (Z.abs (Z.sgn p * round_magnitude (Z.abs p) 1))
      with (round_magnitude (Z.abs p) 1) by nia.
    split; [exact Hm|]. apply round_magnitude_on_grid. lia.
Qed.

(** Adding one never gives less. *)
Lemma plus_one_le x : is_double x -> number_le x (plus_one x).
Proof.
  destruct x as [k| |]; [|done..]. intros [Hlt Hgrid]. unfold plus_one, round64.
  set (p := k + 2 ^ 1074).
  assert (HU : 0 < 2 ^ 1074) by (by apply Z.pow_pos_nonneg).
  assert (Hnn : 0 <= round_magnitude (Z.abs p) 1).
  { destruct (round_magnitude_bounds (Z.abs p)) as [[Hlo _] _]. simpl in Hlo.
    pose proof (grid_pos (Z.abs p)).
    pose proof (Z.div_pos (Z.abs p) (2 ^ grid_shift (Z.abs p))). nia. }
  destruct (Z.lt_ge_cases p 0) as [Hneg|Hpos].
  - assert (Hm : round_magnitude (Z.abs p) 1 <= Z.abs k)
      by (apply round_magnitude_le; [lia|done]).
    destruct (Z.leb_spec (2 ^ 2098) (round_magnitude (Z.abs p) 1)); [lia|].
    simpl. nia.
  - destruct (Z.leb_spec (2 ^ 2098) (round_magnitude (Z.abs p) 1)).
    + destruct (Z.ltb_spec p 0); [lia|done].
    + simpl. destruct (Z.le_gt_cases k 0) as [Hk|Hk]; [nia|].
      assert (k <= round_magnitude (Z.abs p) 1).
      { apply round_magnitude_ge; [lia|]. by rewrite Z.abs_eq in Hgrid by lia. }
      nia.
Qed.

(** Adding one to a binary64 value does not overflow. *)
Lemma plus_one_finite k :
  is_double (Finite k) ->
  plus_one (Finite k)
  = Finite (Z.sgn (k + 2 ^ 1074) * round_magnitude (Z.abs (k + 2 ^ 1074)) 1).
Proof.
  intros Hk. pose proof (plus_one_double _ Hk) as Hd.
  destruct Hk as [Hlt Hgrid]. unfold plus_one, round64 in *.
  set (p := k + 2 ^ 1074) in *.
  destruct (Z.leb_spec (2 ^ 2098) (round_magnitude (Z.abs p) 1)) as [Hov|];
    [|done].
  exfalso. destruct (Z.ltb_spec p 0) as [Hneg|Hpos].
  - assert (round_magnitude (Z.abs p) 1 <= Z.abs k)
      by (apply round_magnitude_le; [lia|done]).
    lia.
  - destruct (round_magnitude_bounds (Z.abs p)) as [_ Hhalf]. simpl in Hhalf.
    assert (HU : 0 < 2 ^ 1074) by (by apply Z.pow_pos_nonneg).
    assert (2 ^ 1074 < 2 ^ 2044) by (apply Z.pow_lt_mono_r; lia).
    assert (2 ^ 2045 = 2 * 2 ^ 2044) by (by rewrite <- Z.pow_succ_r).
    assert (Hp : Z.abs p < 2 ^ 2098 - 2 ^ 2044).
    { destruct (Z.lt_ge_cases k 0) as [Hk|Hk].
      - assert (2 ^ 2044 < 2 ^ 2097) by (apply Z.pow_lt_mono_r; lia).
        assert (2 ^ 2098 = 2 * 2 ^ 2097) by (by rewrite <- Z.pow_succ_r).
        lia.
      - pose proof (double_below_max k) as Hmax.
        rewrite Z.abs_eq in Hlt, Hgrid by lia.
        specialize (Hmax ltac:(lia) Hgrid). lia. }
    assert (HG : 2 ^ grid_shift (Z.abs p) <= 2 ^ 2045).
    { apply Z.pow_le_mono_r; [lia|]. unfold grid_shift.
      destruct (Z.eq_dec (Z.abs p) 0) as [->|Hnz]; [simpl; lia|].
      assert (Z.log2 (Z.abs p) < 2098); [|lia].
      apply Z.log2_lt_pow2; lia. }
    lia.
Qed.

(** The whole numbers up to 2^53 in magnitude are binary64 values. *)
Lemma whole_double n : Z.abs n <= 2 ^ 53 -> is_double (whole n).
Proof.
  intros Hn. unfold whole, is_double.
  assert (HU : 0 < 2 ^ 1074) by (by apply Z.pow_pos_nonneg).
  rewrite Z.abs_mul, (Z.abs_eq (2 ^ 1074)) by lia.
  split.
  - assert (2 ^ 53 * 2 ^ 1074 < 2 ^ 2098)
      by (rewrite <- Z.pow_add_r by lia; apply Z.pow_lt_mono_r; lia).
    nia.
  - destruct (Z.eq_dec (Z.abs n) 0) as [->|Hnz]; [by rewrite Z.mul_0_l|].
    destruct (Z.eq_dec (Z.abs n) (2 ^ 53)) as [->|Hlt].
    + rewrite <- Z.pow_add_r by lia. unfold grid_shift.
      rewrite Z.log2_pow2 by lia.
      apply Z.mod_divide; [by apply Z.pow_nonzero|]. apply pow2_divide. lia.
    + assert (Hlog : Z.log2 (Z.abs n) < 53) by (apply Z.log2_lt_pow2; lia).
      unfold grid_shift. rewrite Z.log2_mul_pow2 by lia.
      pose proof (Z.log2_nonneg (Z.abs n)).
      apply Z.mod_divide; [apply Z.pow_nonzero; lia|].
      apply Z.divide_mul_r. apply pow2_divide. lia.
Qed.

(** Below 2^53 adding one is exact. *)
Lemma plus_one_whole n :
  0 <= n < 2 ^ 53 -> plus_one (whole n) = whole (n + 1).
Proof.
  intros Hn. unfold whole, plus_one.
  replace (n * 2 ^ 1074 + 2 ^ 1074) with ((n + 1) * 2 ^ 1074) by ring.
  apply (round64_double ((n + 1) * 2 ^ 1074)), (whole_double (n + 1)). lia.
Qed.

(** At 2^53 adding one changes nothing. *)
Lemma plus_one_at_limit : plus_one (whole (2 ^ 53)) = whole (2 ^ 53).
Proof. vm_compute. reflexivity. Qed.

Lemma number_le_refl x : number_le x x.
Proof. destruct x; simpl; lia. Qed.

Lemma number_le_trans x y z : number_le x y -> number_le y z -> number_le x z.
Proof. destruct x, y, z; simpl; lia. Qed.

(** One more than a natural number is a natural number, also when the sum
    is rounded. *)
Lemma plus_one_count x : is_count x -> is_count (plus_one x).
Proof.
  intros [[n ->] Hd]. split; [|by apply plus_one_double].
  unfold whole in *. rewrite (plus_one_finite _ Hd).
  assert (HU : 0 < 2 ^ 1074) by (by apply Z.pow_pos_nonneg).
  set (p := Z.of_nat n * 2 ^ 1074 + 2 ^ 1074).
  assert (Hp : 0 < p) by (unfold p; nia).
  rewrite Z.sgn_pos, Z.mul_1_l, Z.abs_eq by lia.
  assert (Hc : exists c, 0 <= c /\ round_magnitude p 1 = c * 2 ^ 1074).
  { destruct (Z.le_gt_cases (grid_shift p) 1074) as [Hsh|Hsh].
    - exists (Z.of_nat n + 1). split; [lia|].
      rewrite round_magnitude_exact; [unfold p; ring|].
      apply Z.mod_divide; [pose proof (grid_pos p); lia|].
      pose proof (grid_shift_nonneg p).
      exists ((Z.of_nat n + 1) * 2 ^ (1074 - grid_shift p)).
      rewrite <- Z.mul_assoc, <- Z.pow_add_r by lia.
      replace (1074 - grid_shift p + grid_shift p) with 1074 by lia.
      unfold p. ring.
    - rewrite round_magnitude_integer.
      exists (nearest_even p (2 ^ grid_shift p) * 2 ^ (grid_shift p - 1074)).
      pose proof (nearest_even_bounds p _ (grid_pos p)) as [Hlo _].
      pose proof (Z.div_pos p (2 ^ grid_shift p) ltac:(lia) (grid_pos p)).
      pose proof (Z.pow_pos_nonneg 2 (grid_shift p - 1074) ltac:(lia) ltac:(lia)).
      split; [nia|].
      rewrite <- Z.mul_assoc, <- Z.pow_add_r by lia.
      do 2 f_equal. lia. }
  destruct Hc as (c & Hc0 & ->). exists (Z.to_nat c).
  by rewrite Z2Nat.id.
Qed.

(** What rounding a quotient gives is on its own grid. *)
Lemma round_magnitude_quotient_on_grid p d :
  0 <= p -> 0 < d ->
  round_magnitude p d mod 2 ^ grid_shift (round_magnitude p d) = 0
  /\ 0 <= round_magnitude p d.
Proof.
  intros Hp Hd. unfold round_magnitude.
  set (q := p / d). pose proof (grid_pos q) as HG.
  pose proof (grid_shift_nonneg q) as Hsh.
  set (G := 2 ^ grid_shift q) in *.
  assert (Hq0 : 0 <= q) by (apply Z.div_pos; lia).
  pose proof (nearest_even_bounds p (d * G) ltac:(nia)) as Hn.
  rewrite <- Z.div_div in Hn by lia. fold q in Hn.
  set (n := nearest_even p (d * G)) in *.
  assert (Hq1 : 0 <= q / G) by (apply Z.div_pos; lia).
  split; [|nia].
  destruct (Z.eq_dec (grid_shift q) 0) as [E|E].
  - pose proof (grid_shift_zero q E) as Hlt.
    subst G. rewrite E in *. change (2 ^ 0) with 1 in *.
    rewrite Z.div_1_r in Hn. rewrite Z.mul_1_r.
    destruct (Z.eq_dec n (2 ^ 53)) as [->|En].
    + vm_compute. reflexivity.
    + assert (grid_shift n = 0) as ->.
      { unfold grid_shift. destruct (Z.eq_dec n 0) as [->|Hnz]; [done|].
        assert (Z.log2 n < 53) by (apply Z.log2_lt_pow2; lia). lia. }
      apply Z.mod_1_r.
  - destruct (grid_shift_range q ltac:(lia)) as [Hp1 Hp2]. fold G in Hp1, Hp2.
    assert (Hq2 : 2 ^ 52 <= q / G) by (apply Z.div_le_lower_bound; lia).
    assert (Hq3 : q / G < 2 ^ 53) by (apply Z.div_lt_upper_bound; lia).
    destruct (Z.eq_dec n (2 ^ 53)) as [En|En].
    + rewrite En. unfold G. rewrite <- Z.pow_add_r by lia.
      assert (grid_shift (2 ^ (53 + grid_shift q)) = 1 + grid_shift q) as ->.
      { unfold grid_shift at 1. rewrite Z.log2_pow2 by lia. lia. }
      apply Z.mod_divide; [pose proof (Z.pow_pos_nonneg 2 (1 + grid_shift q)); lia|].
      apply pow2_divide. lia.
    + assert (grid_shift (n * G) = grid_shift q) as ->.
      { apply grid_shift_of_range; [lia|]. fold G. nia. }
      fold G. apply Z.mod_mul. lia.
Qed.

(** Rounding gives a binary64 value. *)
Lemma round64_is_double p d : 0 < d -> is_double (round64 p d).
Proof.
  intros Hd. unfold round64.
  destruct (round_magnitude_quotient_on_grid (Z.abs p) d ltac:(lia) Hd) as [Hg Hnn].
  destruct (Z.leb_spec (2 ^ 2098) (round_magnitude (Z.abs p) d)) as [|Hlt].
  - by destruct (p <? 0).
  - destruct (Z.eq_dec p 0) as [->|Hnz].
    + change (Z.sgn 0) with 0. rewrite Z.mul_0_l. split; reflexivity.
    + unfold is_double.
      replace (Z.abs (Z.sgn p * round_magnitude (Z.abs p) d))
        with (round_magnitude (Z.abs p) d) by nia.
      done.
Qed.

Lemma decimal_double m e : is_double (JSON.decimal m e).
Proof.
  unfold JSON.decimal. destruct (Z.leb_spec 0 e); apply round64_is_double.
  - done.
  - apply Z.pow_pos_nonneg; lia.
Qed.

Local Close Scope Z_scope.

(** ** Properties of [computeStatus] *)

Lemma line_winner_Some board line p :
  line_winner board line = Some p <-> line_held board line p.
Proof.
  destruct line as [[a b] c]. unfold line_winner, line_held, strict_eq. simpl.
  destruct (read board a) as [[q|]|] eqn:Ha; try (split; [discriminate | intros (? & _); discriminate]).
  repeat case_bool_decide; simpl; split; try discriminate;
    try (intros ([= ->] & Hb & Hc); symmetry in Hb, Hc; done).
  intros [= ->]. by repeat split.
Qed.

Lemma line_winner_None board line :
  line_winner board line = None <-> ~ line_full board line.
Proof.
  split.
  - intros Hn [p Hp]. apply line_winner_Some in Hp. congruence.
  - intros Hn. destruct (line_winner board line) as [p|] eqn:E; [|done].
    destruct Hn. exists p. by apply line_winner_Some.
Qed.

Lemma first_win_None board lines :
  first_win board lines = None <->
  forall line, line ∈ lines -> ~ line_full board line.
Proof.
  induction lines as [|l ls IH]; simpl.
  - split; [intros _ line Hin; inversion Hin | done].
  - destruct (line_winner board l) as [w|] eqn:E.
    + split; [discriminate|]. intros H. exfalso.
      apply (H l); [left|]. exists w. by apply line_winner_Some.
    + rewrite IH. split.
      * intros H line Hin. apply elem_of_cons in Hin as [->|Hin]; [|by apply H].
        by apply line_winner_None.
      * intros H line Hin. apply H. by right.
Qed.

Lemma first_win_Some board lines w line :
  first_win board lines = Some (w, line) <->
  exists before after,
    lines = before ++ line :: after
    /\ (forall l, l ∈ before -> ~ line_full board l)
    /\ line_held board line w.
Proof.
  induction lines as [|l ls IH]; simpl.
  - split; [discriminate|]. intros (before & after & E & _).
    by destruct before.
  - destruct (line_winner board l) as [w'|] eqn:E.
    + split.
      * intros [= -> ->]. exists [], ls. split; [done|]. split.
        -- intros l' Hin. inversion Hin.
        -- by apply line_winner_Some.
      * intros (before & after & Eq & Hb & Hw).
        destruct before as [|l0 before]; simpl in Eq.
        -- injection Eq as -> ->. apply line_winner_Some in Hw. congruence.
        -- injection Eq as <- ->. exfalso. apply (Hb l); [left|].
           exists w'. by apply line_winner_Some.
    + rewrite IH. split.
      * intros (before & after & -> & Hb & Hw).
        exists (l :: before), after. split; [done|]. split; [|done].
        intros l' Hin. apply elem_of_cons in Hin as [->|Hin]; [|by apply Hb].
        by apply line_winner_None.
      * intros (before & after & Eq & Hb & Hw).
        destruct before as [|l0 before]; simpl in Eq.
        -- injection Eq as -> ->. apply line_winner_Some in Hw. congruence.
        -- injection Eq as <- ->. exists before, after.
           split; [done|]. split; [|done]. intros l' Hin. apply Hb. by right.
Qed.

Lemma every_non_null_true board :
  every_non_null board = true <-> forall c, c ∈ board -> c <> None.
Proof.
  unfold every_non_null. rewrite forallb_forall. split.
  - intros H c Hin. apply list_elem_of_In, H in Hin. by apply bool_decide_eq_true in Hin.
  - intros H c Hin. apply bool_decide_eq_true, H. by apply list_elem_of_In.
Qed.

Lemma every_non_null_false board :
  every_non_null board = false <-> None ∈ board.
Proof.
  unfold every_non_null. induction board as [|c cs IH]; simpl.
  - split; [discriminate | intros H; inversion H].
  - rewrite andb_false_iff, IH, elem_of_cons. split.
    + intros [H|H]; [left | by right].
      apply bool_decide_eq_false in H. destruct c; [|done]. by destruct H.
    + intros [<-|H]; [left | by right]. apply bool_decide_eq_false. tauto.
Qed.

(** C1. [computeStatus] returns [WON] exactly when some winning line has its
    three cells non-empty and equal; the line returned is then the first
    such line of [WIN_LINES], whose order is the three rows from the top,
    the three columns from the left, the diagonal 0-4-8 and the diagonal
    2-4-6, and the winner returned is the mark on that line.  This holds
    for every board, in particular for those of nine cells. *)
Theorem computeStatus_won_first_full_line (board : list Cell) (next : Player) :
  WIN_LINES = [ (0, 1, 2); (3, 4, 5); (6, 7, 8);
                (0, 3, 6); (1, 4, 7); (2, 5, 8);
                (0, 4, 8); (2, 4, 6) ]
  /\ ((exists winner line, computeStatus board next = WON winner line)
      <-> (exists line, line ∈ WIN_LINES /\ line_full board line))
  /\ (forall winner line,
        computeStatus board next = WON winner line ->
        exists before after,
          WIN_LINES = before ++ line :: after
          /\ (forall l, l ∈ before -> ~ line_full board l)
          /\ line_held board line winner).
Proof.
  split; [done|]. unfold computeStatus. split.
  - split.
    + intros (w & l & H).
      destruct (first_win board WIN_LINES) as [[w' l']|] eqn:E.
      * apply first_win_Some in E as (before & after & Eq & _ & Hw).
        exists l'. split; [|by exists w'].
        rewrite Eq. apply elem_of_app. right. left.
      * by destruct (every_non_null board).
    + intros (l & Hin & Hfull).
      destruct (first_win board WIN_LINES) as [[w' l']|] eqn:E; [by eauto|].
      exfalso. eapply first_win_None in E; eauto.
  - intros w l H.
    destruct (first_win board WIN_LINES) as [[w' l']|] eqn:E.
    + injection H as -> ->. by apply first_win_Some.
    + by destruct (every_non_null board).
Qed.

Lemma computeStatus_no_win board next :
  (forall line, line ∈ WIN_LINES -> ~ line_full board line) ->
  computeStatus board next
  = if every_non_null board then DRAW else IN_PROGRESS next.
Proof.
  intros H. apply first_win_None in H. unfold computeStatus. by rewrite H.
Qed.

(** C2. On a board where no winning line is fully occupied by one player,
    [computeStatus] returns [DRAW] when every cell is non-empty, and
    [IN_PROGRESS] carrying exactly the [nextPlayer] it was given when some
    cell is empty. *)
Theorem computeStatus_draw_or_in_progress (board : list Cell) (next : Player) :
  (forall line, line ∈ WIN_LINES -> ~ line_full board line) ->
  ((forall c, c ∈ board -> c <> None) -> computeStatus board next = DRAW)
  /\ (None ∈ board -> computeStatus board next = IN_PROGRESS next).
Proof.
  intros H. rewrite (computeStatus_no_win _ _ H). split.
  - intros Hfull. apply every_non_null_true in Hfull. by rewrite Hfull.
  - intros Hempty. apply every_non_null_false in Hempty. by rewrite Hempty.
Qed.

Lemma computeStatus_draw_or_in_progress_witness :
  ((forall line, line ∈ WIN_LINES -> ~ line_full drawn_board line)
   /\ (forall c, c ∈ drawn_board -> c <> None)
   /\ computeStatus drawn_board O = DRAW)
  /\ ((forall line, line ∈ WIN_LINES -> ~ line_full empty_board line)
      /\ None ∈ empty_board
      /\ computeStatus empty_board O = IN_PROGRESS O).
Proof.
  assert (Hd : forall line, line ∈ WIN_LINES -> ~ line_full drawn_board line)
    by (apply first_win_None; reflexivity).
  assert (Hc : forall c, c ∈ drawn_board -> c <> None)
    by (apply every_non_null_true; reflexivity).
  assert (He : forall line, line ∈ WIN_LINES -> ~ line_full empty_board line)
    by (apply first_win_None; reflexivity).
  assert (Hn : None ∈ empty_board) by (apply every_non_null_false; reflexivity).
  split.
  - split; [exact Hd|]. split; [exact Hc|].
    exact (proj1 (computeStatus_draw_or_in_progress drawn_board O Hd) Hc).
  - split; [exact He|]. split; [exact Hn|].
    exact (proj2 (computeStatus_draw_or_in_progress empty_board O He) Hn).
Defined.

(** C10. Whether [computeStatus] answers [WON] or [DRAW], and with which
    winner and line, does not depend on its [nextPlayer] argument; the
    argument shows only in [IN_PROGRESS], which carries it unchanged. *)
Theorem computeStatus_outcome_independent_of_nextPlayer
  (board : list Cell) (p q : Player) :
  (forall winner line,
      computeStatus board p = WON winner line ->
      computeStatus board q = WON winner line)
  /\ (computeStatus board p = DRAW -> computeStatus board q = DRAW)
  /\ (forall r,
        computeStatus board p = IN_PROGRESS r ->
        r = p /\ computeStatus board q = IN_PROGRESS q).
Proof.
  unfold computeStatus.
  destruct (first_win board WIN_LINES) as [[w l]|];
    [|destruct (every_non_null board)];
    repeat split; intros; simplify_eq; done.
Qed.

Lemma computeStatus_outcome_independent_of_nextPlayer_witness :
  computeStatus drawn_board X = DRAW /\ computeStatus drawn_board O = DRAW.
Proof.
  assert (H : computeStatus drawn_board X = DRAW) by reflexivity.
  split; [exact H|].
  exact (proj1 (proj2
    (computeStatus_outcome_independent_of_nextPlayer drawn_board X O)) H).
Defined.

(** ** Properties of [handleSquareClick] *)

Lemma status_in_progress_turn s turn :
  status s = IN_PROGRESS turn -> turn = nextPlayer s.
Proof.
  unfold status, computeStatus.
  destruct (first_win _ _) as [[w l]|]; [discriminate|].
  destruct (every_non_null _); [discriminate|]. by intros [= <-].
Qed.

(** A click on an empty cell of a game in progress. *)
Lemma handleSquareClick_valid index s turn :
  read_at (board s) index = Some None ->
  status s = IN_PROGRESS turn ->
  handleSquareClick index s
  = let newBoard := <[Z.to_nat index := Some (nextPlayer s)]> (board s) in
    let upcomingNext := otherPlayer (nextPlayer s) in
    mkState newBoard upcomingNext
            (score_after (computeStatus newBoard upcomingNext) (score s)).
Proof.
  intros Hcell Hst. pose proof (status_in_progress_turn _ _ Hst) as ->.
  unfold handleSquareClick. rewrite Hcell, Hst.
  rewrite bool_decide_eq_true_2 by done. simpl.
  by destruct (computeStatus _ _).
Qed.

(** Any other click changes nothing. *)
Lemma handleSquareClick_invalid index s :
  read_at (board s) index <> Some None
  \/ (forall turn, status s <> IN_PROGRESS turn) ->
  handleSquareClick index s = s.
Proof.
  unfold handleSquareClick. intros [H|H].
  - by rewrite bool_decide_eq_false_2.
  - destruct (negb _); [done|]. destruct (status s) eqn:E; [|done..].
    by destruct (H next).
Qed.

Lemma read_at_Some board index c :
  read_at board index = Some c ->
  (0 <= index)%Z /\ Z.to_nat index < length board
  /\ board !! Z.to_nat index = Some c.
Proof.
  unfold read_at, read. destruct (Z.ltb_spec index 0); [discriminate|].
  intros Hc. split; [done|]. split; [|done]. by eapply lookup_lt_Some.
Qed.

(** C3. A click is ignored, leaving board, next player and score as they
    were, when the index is outside 0..8, when the cell is already filled,
    or when the round is won or drawn.  [handleSquareClick] contains no
    operation that throws: it is a total function of the state. *)
Theorem handleSquareClick_ignored (index : Z) (s : State) :
  length (board s) = 9 ->
  (index < 0)%Z \/ (8 < index)%Z
  \/ (exists p, read_at (board s) index = Some (Some p))
  \/ (exists winner line, status s = WON winner line)
  \/ status s = DRAW ->
  handleSquareClick index s = s
  /\ board (handleSquareClick index s) = board s
  /\ nextPlayer (handleSquareClick index s) = nextPlayer s
  /\ score (handleSquareClick index s) = score s.
Proof.
  intros Hlen H.
  assert (E : handleSquareClick index s = s); [|by rewrite E].
  apply handleSquareClick_invalid.
  destruct H as [H|[H|[[p H]|[(w & l & H)|H]]]].
  - left. unfold read_at. by rewrite (proj2 (Z.ltb_lt _ _) H).
  - left. intros Hc. apply read_at_Some in Hc as (_ & Hc & _). lia.
  - left. by rewrite H.
  - right. intros turn. by rewrite H.
  - right. intros turn. by rewrite H.
Qed.

Lemma handleSquareClick_ignored_witness :
  (length (board initial_state) = 9 /\ (8 < 9)%Z
   /\ handleSquareClick 9 initial_state = initial_state)
  /\ (length (board initial_state) = 9 /\ (-1 < 0)%Z
      /\ handleSquareClick (-1) initial_state = initial_state)
  /\ (length (board (handleSquareClick 4 initial_state)) = 9
      /\ read_at (board (handleSquareClick 4 initial_state)) 4 = Some (Some X)
      /\ handleSquareClick 4 (handleSquareClick 4 initial_state)
         = handleSquareClick 4 initial_state)
  /\ (status (top_row_round zero_score) = WON X (0, 1, 2)
      /\ read_at (board (top_row_round zero_score)) 8 = Some None
      /\ handleSquareClick 8 (top_row_round zero_score)
         = top_row_round zero_score)
  /\ (status (drawn_round zero_score) = DRAW
      /\ handleSquareClick 8 (drawn_round zero_score) = drawn_round zero_score).
Proof.
  split; [|split; [|split; [|split]]].
  - split; [reflexivity|]. split; [reflexivity|].
    apply (handleSquareClick_ignored 9 initial_state); [reflexivity|].
    right; left; reflexivity.
  - split; [reflexivity|]. split; [reflexivity|].
    apply (handleSquareClick_ignored (-1) initial_state); [reflexivity|].
    left; reflexivity.
  - split; [reflexivity|]. split; [reflexivity|].
    apply (handleSquareClick_ignored 4 (handleSquareClick 4 initial_state));
      [reflexivity|].
    right; right; left. exists X. reflexivity.
  - split; [reflexivity|]. split; [reflexivity|].
    apply (handleSquareClick_ignored 8 (top_row_round zero_score));
      [reflexivity|].
    right; right; right; left. exists X, (0, 1, 2). reflexivity.
  - split; [reflexivity|].
    apply (handleSquareClick_ignored 8 (drawn_round zero_score));
      [reflexivity|].
    right; right; right; right. reflexivity.
Defined.






(** ** Properties of the resets *)

(** C9. [resetRound] makes all nine cells empty and makes [startingPlayer]
    the next player, which is the current next player when the argument is
    omitted; both scores stay exactly as they were. *)
Theorem resetRound_clears_board_keeps_score
  (s : State) (startingPlayer : option Player) :
  board (resetRound startingPlayer s)
  = [None; None; None; None; None; None; None; None; None]
  /\ nextPlayer (resetRound startingPlayer s)
     = match startingPlayer with
       | Some p => p
       | None => nextPlayer s
       end
  /\ score_X (score (resetRound startingPlayer s)) = score_X (score s)
  /\ score_O (score (resetRound startingPlayer s)) = score_O (score s)
  /\ score (resetRound startingPlayer s) = score s.
Proof. by destruct startingPlayer. Qed.

(** ** Properties of the JSON grammar: the fuel is enough *)

Lemma skip_ws_length s : length (JSON.skip_ws s) <= length s.
Proof.
  induction s as [|c s IH]; simpl; [done|].
  destruct (JSON.is_ws c); simpl; lia.
Qed.

Lemma strip_prefix_length pre s r :
  JSON.strip_prefix pre s = Some r -> length r + length pre = length s.
Proof.
  revert s. induction pre as [|p pre IH]; intros [|c s] H; simpl in *;
    simplify_eq; try done.
  destruct (p =? c)%N; [|done]. apply IH in H. lia.
Qed.

Lemma take_digits_length s ds r :
  JSON.take_digits s = (ds, r) -> length r + length ds = length s.
Proof.
  revert ds r. induction s as [|c s IH]; intros ds r H; simpl in *.
  - by simplify_eq.
  - destruct (JSON.is_digit c); [|by simplify_eq].
    destruct (JSON.take_digits s) as [ds' r'] eqn:E. simplify_eq. simpl.
    specialize (IH _ _ eq_refl). lia.
Qed.

Lemma parse_exponent_length s e r :
  JSON.parse_exponent s = Some (e, r) -> length r <= length s.
Proof.
  unfold JSON.parse_exponent. intros H.
  destruct s as [|c rest]; [by simplify_eq|].
  destruct ((c =? 101)%N || (c =? 69)%N); [|by simplify_eq].
  destruct rest as [|sg rest1].
  - simpl in H. done.
  - destruct (sg =? 45)%N; [|destruct (sg =? 43)%N].
    all: destruct (JSON.take_digits _) as [[|d ds] r'] eqn:E; [done|].
    all: apply take_digits_length in E; simplify_eq; simpl in *; lia.
Qed.

Lemma parse_number_length s r :
  JSON.parse_number s = Some r -> length r.2 < length s.
Proof.
  destruct r as [n r]. unfold JSON.parse_number. intros H. simpl.
  set (sign := match s with [] => (false, s) | c :: r0 => if (c =? 45)%N then (true, r0) else (false, s) end) in H.
  assert (Hs : length sign.2 <= length s).
  { subst sign. destruct s as [|c r0]; [done|]. destruct (c =? 45)%N; simpl; lia. }
  destruct sign as [neg s1]. simpl in Hs.
  destruct (JSON.take_digits s1) as [[|d more] s2] eqn:E; [done|].
  apply take_digits_length in E. simpl in E.
  destruct ((d =? 0)%N && _); [done|].
  simpl in H.
  apply bind_Some in H as ([fs s3] & Hf & H).
  apply bind_Some in H as ([e s4] & He & H). simplify_eq.
  apply parse_exponent_length in He.
  assert (length s3 <= length s2); [|lia].
  destruct s2 as [|c r0]; [by simplify_eq|].
  destruct (c =? 46)%N; [|by simplify_eq].
  destruct (JSON.take_digits r0) as [[|f fs'] s3'] eqn:E2; [done|].
  simplify_eq. apply take_digits_length in E2. simpl in *. lia.
Qed.

Lemma parse_string_length s r :
  JSON.parse_string s = Some r -> length r.2 < length s.
Proof.
  revert r. induction s as [s IH] using (induction_ltof1 _ (@length N)).
  unfold ltof in IH. intros r H. destruct s as [|c rest]; [done|]. simpl in H.
  destruct (c =? quote)%N; [simplify_eq; simpl; lia|].
  destruct (c =? 92)%N.
  - destruct rest as [|e rest1]; [done|].
    destruct (e =? 117)%N.
    + destruct rest1 as [|h1 [|h2 [|h3 [|h4 rest2]]]]; try done.
      do 4 (apply bind_Some in H as (? & _ & H)).
      apply bind_Some in H as (r' & Hr & H). simplify_eq. simpl.
      apply IH in Hr; unfold jsstring in *; simpl in *; lia.
    + apply bind_Some in H as (? & _ & H).
      apply bind_Some in H as (r' & Hr & H). simplify_eq. simpl.
      apply IH in Hr; unfold jsstring in *; simpl in *; lia.
  - destruct (c <? 32)%N; [done|].
    apply bind_Some in H as (r' & Hr & H). simplify_eq. simpl.
    apply IH in Hr; unfold jsstring in *; simpl in *; lia.
Qed.

Ltac json_lengths IHv IHe IHm :=
  repeat match goal with
    | H : JSON.skip_ws ?x = _ |- _ =>
        apply (f_equal length) in H; pose proof (skip_ws_length x)
    | H : JSON.parse_string _ = Some _ |- _ => apply parse_string_length in H
    | H : JSON.parse_number _ = Some _ |- _ => apply parse_number_length in H
    | H : JSON.strip_prefix _ _ = Some _ |- _ => apply strip_prefix_length in H
    | H : JSON.parse_value _ _ = Some _ |- _ => apply IHv in H
    | H : JSON.parse_elements _ _ _ = Some _ |- _ => apply IHe in H
    | H : JSON.parse_members _ _ _ = Some _ |- _ => apply IHm in H
    end;
  unfold jsstring in *; simpl in *; try lia.

Ltac json_cases :=
  repeat match goal with
    | H : _ ≫= _ = Some _ |- _ => apply bind_Some in H as (? & ? & H)
    | H : context [match ?x with _ => _ end] |- _ => destruct x eqn:?
    | H : Some _ = Some _ |- _ => injection H as H
    | H : None = Some _ |- _ => discriminate H
    end; subst.

Lemma parse_value_length fuel :
  (forall s r, JSON.parse_value fuel s = Some r -> length r.2 < length s)
  /\ (forall s acc r,
        JSON.parse_elements fuel s acc = Some r -> length r.2 < length s)
  /\ (forall s acc r,
        JSON.parse_members fuel s acc = Some r -> length r.2 < length s).
Proof.
  induction fuel as [|fuel (IHv & IHe & IHm)]; [by repeat split|].
  split; [|split].
  - intros s r H. simpl in H. json_cases; json_lengths IHv IHe IHm.
  - intros s acc r H. simpl in H. json_cases; json_lengths IHv IHe IHm.
  - intros s acc r H. simpl in H. json_cases; json_lengths IHv IHe IHm.
Qed.

Lemma parse_value_stable fuel fuel' :
  (forall s,
      2 * length s + 1 <= fuel -> 2 * length s + 1 <= fuel' ->
      JSON.parse_value fuel s = JSON.parse_value fuel' s)
  /\ (forall s acc,
        2 * length s + 2 <= fuel -> 2 * length s + 2 <= fuel' ->
        JSON.parse_elements fuel s acc = JSON.parse_elements fuel' s acc)
  /\ (forall s acc,
        2 * length s + 2 <= fuel -> 2 * length s + 2 <= fuel' ->
        JSON.parse_members fuel s acc = JSON.parse_members fuel' s acc).
Proof.
  revert fuel'. induction fuel as [|fuel IH]; intros [|fuel'];
    try (repeat split; intros; lia).
  destruct (IH fuel') as (IHv & IHe & IHm). clear IH.
  split; [|split].
  - intros s Hf Hf'. simpl. pose proof (skip_ws_length s) as Hws.
    destruct (JSON.skip_ws s) as [|c rest]; [done|]. simpl in Hws.
    destruct (c =? 123)%N.
    { pose proof (skip_ws_length rest) as Hws'.
      destruct (JSON.skip_ws rest) as [|c' rest']; [done|].
      destruct (c' =? 125)%N; [done|]. apply IHm; lia. }
    destruct (c =? 91)%N; [|done].
    pose proof (skip_ws_length rest) as Hws'.
    destruct (JSON.skip_ws rest) as [|c' rest']; [done|].
    destruct (c' =? 93)%N; [done|]. apply IHe; lia.
  - intros s acc Hf Hf'. simpl. rewrite (IHv s) by lia.
    destruct (JSON.parse_value fuel' s) as [r|] eqn:E; [|done]. simpl.
    apply parse_value_length in E. pose proof (skip_ws_length r.2) as Hws.
    destruct (JSON.skip_ws r.2) as [|c rest]; [done|]. simpl in Hws.
    destruct (c =? 44)%N; [|done]. apply IHe; lia.
  - intros s acc Hf Hf'. simpl. pose proof (skip_ws_length s) as Hws.
    destruct (JSON.skip_ws s) as [|q s1]; [done|]. simpl in Hws.
    destruct (q =? quote)%N; [|done].
    destruct (JSON.parse_string s1) as [k|] eqn:Ek; [|done]. simpl.
    apply parse_string_length in Ek. pose proof (skip_ws_length k.2) as Hws1.
    destruct (JSON.skip_ws k.2) as [|colon s2]; [done|]. simpl in Hws1.
    destruct (colon =? 58)%N; [|done].
    rewrite (IHv s2) by lia.
    destruct (JSON.parse_value fuel' s2) as [r|] eqn:E; [|done]. simpl.
    apply parse_value_length in E. pose proof (skip_ws_length r.2) as Hws2.
    destruct (JSON.skip_ws r.2) as [|c rest]; [done|]. simpl in Hws2.
    destruct (c =? 44)%N; [|done]. apply IHm; lia.
Qed.

(** Beyond twice the length of the text, more fuel changes nothing. *)
Lemma parse_fuel_enough text fuel :
  2 * length text + 2 <= fuel ->
  JSON.parse_value fuel text = JSON.parse_value (2 * length text + 2) text.
Proof. intros H. apply parse_value_stable; lia. Qed.

(** Every number that the parser returns is a binary64 value. *)
Lemma parse_number_double s r :
  JSON.parse_number s = Some r -> is_double r.1.
Proof.
  unfold JSON.parse_number. intros H.
  destruct (match s with [] => _ | _ => _ end) as [neg s1].
  destruct (JSON.take_digits s1) as [[|d more] s2]; [done|].
  destruct ((d =? 0)%N && _); [done|].
  apply bind_Some in H as ([fs s3] & _ & H).
  apply bind_Some in H as ([e s4] & _ & H). simplify_eq. simpl.
  apply decimal_double.
Qed.

Lemma parse_value_double fuel :
  (forall s r, JSON.parse_value fuel s = Some r ->
               double_if_number r.1 /\ members_double r.1)
  /\ (forall s acc r, JSON.parse_elements fuel s acc = Some r ->
                      double_if_number r.1 /\ members_double r.1)
  /\ (forall s acc r,
        JSON.parse_members fuel s acc = Some r ->
        Forall (fun kv => double_if_number kv.2) acc ->
        double_if_number r.1 /\ members_double r.1).
Proof.
  induction fuel as [|fuel (IHv & IHe & IHm)]; [by repeat split|].
  split; [|split].
  - intros s r H. simpl in H. json_cases; simpl; eauto.
    split; [|done]. by eapply parse_number_double.
  - intros s acc r H. simpl in H. json_cases; simpl; eauto.
  - intros s acc r H Hacc. simpl in H. json_cases; simpl.
    + eapply IHm; [done|]. apply Forall_cons. split; [|done].
      simpl. by eapply IHv.
    + split; [done|]. apply Forall_app. split; [by apply Forall_rev|].
      apply Forall_singleton. simpl. by eapply IHv.
Qed.

Lemma parse_double text v :
  JSON.parse text = Returns v -> members_double v.
Proof.
  unfold JSON.parse. intros H.
  destruct (JSON.parse_value _ text) as [[v' rest]|] eqn:E; [|done].
  destruct (JSON.skip_ws rest); [|done]. simplify_eq.
  by destruct (proj1 (parse_value_double _) _ _ E).
Qed.

Lemma last_member_double members key :
  Forall (fun kv => double_if_number kv.2) members ->
  is_double (number_or_zero (last_member members key)).
Proof.
  intros H. unfold last_member.
  destruct (List.find _ (rev members)) as [[k v]|] eqn:E; simpl.
  - apply find_some in E as [Hin _]. apply in_rev in Hin.
    rewrite List.Forall_forall in H. specialize (H _ Hin). simpl in H. destruct v; simpl; try done; split; reflexivity.
  - split; reflexivity.
Qed.

Lemma field_double parsed key :
  members_double parsed -> is_double (number_or_zero (field parsed key)).
Proof.
  destruct parsed; simpl; try (intros _; split; reflexivity).
  apply last_member_double.
Qed.

(** ** Properties of the score loader *)

Lemma load_effect_cases st s :
  load_effect st s = s
  \/ exists raw parsed,
      st = Text raw /\ JSON.parse raw = Returns parsed
      /\ load_effect st s
         = setScore (fun _ => mkScore (number_or_zero (field parsed (js "X")))
                                      (number_or_zero (field parsed (js "O")))) s.
Proof.
  unfold load_effect, load_body.
  destruct st as [| |raw]; simpl; [by left..|].
  destruct raw as [|c raw]; simpl; [by left|].
  destruct (JSON.parse (c :: raw)) as [parsed|e] eqn:E; simpl; [|by left].
  destruct parsed; simpl; try (by left); right; eauto.
Qed.

Lemma loadScore_parsed raw parsed :
  JSON.parse raw = Returns parsed ->
  loadScore (Text raw)
  = mkScore (number_or_zero (field parsed (js "X")))
            (number_or_zero (field parsed (js "O"))).
Proof.
  intros E. unfold loadScore, load_effect, load_body. simpl.
  destruct raw as [|c raw]; [discriminate|]. rewrite E. simpl.
  by destruct parsed.
Qed.

(** A load leaves binary64 values in the score. *)
Lemma load_effect_doubles st s :
  score_doubles (score s) -> score_doubles (score (load_effect st s)).
Proof.
  intros Hd.
  destruct (load_effect_cases st s) as [->|(raw & parsed & -> & E & ->)];
    [done|].
  apply parse_double in E. split; simpl; by apply field_double.
Qed.

(** C6. The loaded score is zero for both players when nothing is stored
    (or storage cannot be read) and when the stored text does not parse,
    as for the text [not json].  When the text parses, each of the fields X
    and O is the number found under that name in the parsed record, and 0
    when there is none or it is not a number; one field being unusable does
    not discard the other.  The loader is a total function: every throw
    inside it is caught. *)
Theorem loadScore_defaults_fieldwise :
  loadScore Absent = zero_score
  /\ loadScore Denied = zero_score
  /\ loadScore (Text []) = zero_score
  /\ (forall raw e,
        JSON.parse raw = Throws e -> loadScore (Text raw) = zero_score)
  /\ (JSON.parse (js "not json") = Throws SyntaxError
      /\ loadScore (Text (js "not json")) = zero_score)
  /\ (forall raw parsed,
        JSON.parse raw = Returns parsed ->
        loadScore (Text raw)
        = mkScore (number_or_zero (field parsed (js "X")))
                  (number_or_zero (field parsed (js "O")))
        /\ (forall n, field parsed (js "X") = Some (JNum n) ->
                      score_X (loadScore (Text raw)) = n)
        /\ (forall n, field parsed (js "O") = Some (JNum n) ->
                      score_O (loadScore (Text raw)) = n)
        /\ ((forall n, field parsed (js "X") <> Some (JNum n)) ->
            score_X (loadScore (Text raw)) = Finite 0)
        /\ ((forall n, field parsed (js "O") <> Some (JNum n)) ->
            score_O (loadScore (Text raw)) = Finite 0)).
Proof.
  split; [reflexivity|]. split; [reflexivity|]. split; [reflexivity|].
  split; [|split; [by split|]].
  - intros raw e E. unfold loadScore, load_effect, load_body. simpl.
    destruct raw as [|c raw]; [done|]. by rewrite E.
  - intros raw parsed E. rewrite (loadScore_parsed _ _ E). simpl.
    split; [done|]. repeat split.
    + by intros n ->.
    + by intros n ->.
    + intros H. destruct (field parsed (js "X")) as [[| | n | | |]|]; try done.
      by destruct (H n).
    + intros H. destruct (field parsed (js "O")) as [[| | n | | |]|]; try done.
      by destruct (H n).
Qed.

Lemma loadScore_defaults_fieldwise_witness :
  JSON.parse half_valid_record
  = Returns (JObj [(js "X", JNum (whole 3)); (js "O", JStr (js "bad"))])
  /\ loadScore (Text half_valid_record) = mkScore (whole 3) (Finite 0).
Proof.
  assert (E : JSON.parse half_valid_record
              = Returns (JObj [(js "X", JNum (whole 3)); (js "O", JStr (js "bad"))]))
    by (vm_compute; reflexivity).
  split; [exact E|].
  exact (proj1 (proj2 (proj2 (proj2 (proj2 (proj2
    loadScore_defaults_fieldwise)))) half_valid_record _ E)).
Defined.

(** ** The score over sequences of operations *)

Lemma score_le_refl a : score_le a a.
Proof. split; apply number_le_refl. Qed.

Lemma score_le_trans a b c : score_le a b -> score_le b c -> score_le a c.
Proof. intros [? ?] [? ?]. split; eapply number_le_trans; eauto. Qed.

Lemma score_after_le st prev :
  score_doubles prev -> score_le prev (score_after st prev).
Proof.
  intros [HX HO]. destruct st as [r|[] l|]; simpl; try apply score_le_refl;
    split; simpl; (apply number_le_refl || by apply plus_one_le).
Qed.

Lemma score_after_doubles st prev :
  score_doubles prev -> score_doubles (score_after st prev).
Proof.
  intros [HX HO]. destruct st as [r|[] l|]; simpl; try done;
    split; simpl; (done || by apply plus_one_double).
Qed.

Lemma handleSquareClick_cases index s :
  handleSquareClick index s = s
  \/ exists turn,
      read_at (board s) index = Some None /\ status s = IN_PROGRESS turn.
Proof.
  destruct (decide (read_at (board s) index = Some None)) as [Hc|Hc].
  - destruct (status s) as [turn| |] eqn:E; [right; eauto| |];
      left; apply handleSquareClick_invalid; right; intros t; by rewrite E.
  - left. apply handleSquareClick_invalid. by left.
Qed.

Lemma handleSquareClick_score_le index s :
  score_doubles (score s) ->
  score_le (score s) (score (handleSquareClick index s))
  /\ score_doubles (score (handleSquareClick index s)).
Proof.
  intros Hd. destruct (handleSquareClick_cases index s) as [->|(turn & Hc & Hs)].
  - split; [apply score_le_refl | done].
  - rewrite (handleSquareClick_valid _ _ _ Hc Hs). simpl.
    split; [by apply score_after_le | by apply score_after_doubles].
Qed.

Lemma run_rounds_score_le ops s :
  Forall plays_round ops ->
  score_doubles (score s) ->
  score_le (score s) (score (run ops s))
  /\ score_doubles (score (run ops s)).
Proof.
  revert s. induction ops as [|op ops IH]; intros s Hops Hd; simpl.
  - split; [apply score_le_refl | done].
  - apply Forall_cons in Hops as [Hop Hops].
    assert (Hstep : score_le (score s) (score (step s op))
                    /\ score_doubles (score (step s op))).
    { destruct op; simpl in *; try done.
      - by apply handleSquareClick_score_le.
      - split; [apply score_le_refl | done]. }
    destruct Hstep as [Hle Hd']. destruct (IH _ Hops Hd') as [Hle' Hd''].
    split; [by eapply score_le_trans | done].
Qed.

(** Whatever the component does, its scores are binary64 values. *)
Lemma run_score_doubles ops s :
  score_doubles (score s) -> score_doubles (score (run ops s)).
Proof.
  revert s. induction ops as [|op ops IH]; intros s Hd; simpl; [done|].
  apply IH. destruct op as [index|sp| |st]; simpl.
  - by apply handleSquareClick_score_le.
  - done.
  - split; split; reflexivity.
  - by apply load_effect_doubles.
Qed.

(** C8, as the claim states it, fails: a score load is not a reset, yet
    on mount, with [negative_record] in storage, it takes the score of X
    from 0 down to -1. *)
Lemma score_load_can_decrease :
  score initial_state = mkScore (Finite 0) (Finite 0)
  /\ score (run [LoadScore (Text negative_record)] initial_state)
     = mkScore (whole (-1)) (Finite 0)
  /\ ~ score_le (score initial_state)
                (score (run [LoadScore (Text negative_record)] initial_state)).
Proof.
  split; [reflexivity|]. split; [vm_compute; reflexivity|].
  intros [H _]. vm_compute in H. by apply H.
Qed.

(** C8, amended.  Over every sequence of moves and round resets neither
    score ever decreases: a valid move whose new status is [WON] replaces
    the winner's score by the binary64 sum of that score and 1, which is
    never less, and leaves the other score; every other move and every
    round reset leaves both scores as they are.  [resetAll] sets both to
    zero.  A score load leaves the score as it is or replaces both fields
    by what the stored record gives (its numeric X and O, 0 for a field
    that is no number), whether that is more or less than before.  The
    scores are binary64 values in every state that the operations reach
    from the mounted component. *)
Theorem score_changes_by_operation :
  (forall s index turn,
      read_at (board s) index = Some None ->
      status s = IN_PROGRESS turn ->
      score (handleSquareClick index s)
      = match status (handleSquareClick index s) with
        | WON winner _ =>
            score_with (score s) winner (plus_one (score_get (score s) winner))
        | IN_PROGRESS _ | DRAW => score s
        end)
  /\ (forall s index,
        read_at (board s) index <> Some None
        \/ (forall turn, status s <> IN_PROGRESS turn) ->
        score (handleSquareClick index s) = score s)
  /\ (forall s startingPlayer, score (resetRound startingPlayer s) = score s)
  /\ (forall ops s,
        Forall plays_round ops ->
        score_doubles (score s) ->
        score_le (score s) (score (run ops s))
        /\ score_doubles (score (run ops s)))
  /\ (forall s, score (resetAll s) = zero_score)
  /\ (forall st s,
        score (load_effect st s) = score s
        \/ exists raw parsed,
            st = Text raw /\ JSON.parse raw = Returns parsed
            /\ score (load_effect st s)
               = mkScore (number_or_zero (field parsed (js "X")))
                         (number_or_zero (field parsed (js "O"))))
  /\ (forall ops, score_doubles (score (run ops initial_state))).
Proof.
  split; [|split; [|split; [done|split; [|split; [done|split]]]]].
  - intros s index turn Hc Hs.
    rewrite (handleSquareClick_valid _ _ _ Hc Hs). unfold status. simpl.
    by destruct (computeStatus _ _).
  - intros s index H. by rewrite (handleSquareClick_invalid _ _ H).
  - apply run_rounds_score_le.
  - intros st s.
    destruct (load_effect_cases st s) as [->|(raw & parsed & -> & E & ->)];
      [by left|].
    right. by exists raw, parsed.
  - intros ops. apply run_score_doubles. split; split; reflexivity.
Qed.

Lemma score_changes_by_operation_witness :
  Forall plays_round [ApplyMove 0; ApplyMove 3; ApplyMove 1; ApplyMove 4;
                      ApplyMove 2; ResetRound None; ApplyMove 4]
  /\ score_doubles (score initial_state)
  /\ score_le (score initial_state)
              (score (run [ApplyMove 0; ApplyMove 3; ApplyMove 1; ApplyMove 4;
                           ApplyMove 2; ResetRound None; ApplyMove 4]
                          initial_state)).
Proof.
  assert (H : Forall plays_round
                [ApplyMove 0; ApplyMove 3; ApplyMove 1; ApplyMove 4;
                 ApplyMove 2; ResetRound None; ApplyMove 4])
    by (repeat constructor).
  assert (Hd : score_doubles (score initial_state))
    by (split; split; reflexivity).
  split; [exact H|]. split; [exact Hd|].
  exact (proj1 (proj1 (proj2 (proj2 (proj2 score_changes_by_operation)))
                      _ initial_state H Hd)).
Defined.

(** ** Winning lines on the boards that play reaches *)

Lemma marks_bound board : marks X board + marks O board <= length board.
Proof.
  unfold marks. induction board as [|[[]|] cs IH]; simpl in *; lia.
Qed.

Lemma marks_insert_same board i p :
  board !! i = Some None ->
  marks p (<[i := Some p]> board) = S (marks p board).
Proof.
  unfold marks. revert i. induction board as [|c cs IH]; intros [|i] H;
    simpl in *; try discriminate.
  - injection H as ->. rewrite bool_decide_eq_true_2 by done.
    by rewrite bool_decide_eq_false_2 by done.
  - specialize (IH _ H). destruct (bool_decide (c = Some p)); simpl;
      [f_equal|]; exact IH.
Qed.

Lemma marks_insert_other board i p q :
  board !! i = Some None -> q <> p ->
  marks q (<[i := Some p]> board) = marks q board.
Proof.
  unfold marks. revert i. induction board as [|c cs IH]; intros [|i] H Hq;
    simpl in *; try discriminate.
  - injection H as ->. rewrite !bool_decide_eq_false_2; [done..|].
    intros [= ->]. done.
  - specialize (IH _ H Hq). destruct (bool_decide (c = Some q)); simpl;
      [f_equal|]; exact IH.
Qed.

Lemma all_boards_complete (board : list Cell) :
  In board (all_boards (length board)).
Proof.
  induction board as [|c cs IH]; simpl; [by left|].
  apply in_flat_map. exists cs. split; [done|].
  destruct c as [[]|]; simpl; tauto.
Qed.

Lemma five_marks_two_lines_all :
  forallb five_marks_two_lines (all_boards 9) = true.
Proof. vm_compute. reflexivity. Qed.

Lemma held_lines_bound board p :
  length board = 9 -> marks p board <= 5 ->
  length (List.filter (held_by board p) WIN_LINES) <= 2.
Proof.
  intros Hlen Hm. pose proof five_marks_two_lines_all as Hall.
  rewrite forallb_forall in Hall.
  pose proof (all_boards_complete board) as Hin. rewrite Hlen in Hin.
  apply Hall in Hin. unfold five_marks_two_lines in Hin.
  rewrite forallb_forall in Hin.
  assert (Hp : In p [X; O]) by (destruct p; simpl; tauto).
  apply Hin, orb_true_iff in Hp as [Hp|Hp].
  - apply Nat.ltb_lt in Hp. lia.
  - by apply Nat.leb_le in Hp.
Qed.

Lemma full_lines_nil board :
  full_lines board = [] <->
  forall line, line ∈ WIN_LINES -> ~ line_full board line.
Proof.
  unfold full_lines. split.
  - intros E line Hin Hfull. apply line_winner_None in Hfull; [done|].
    destruct (line_winner board line) as [w|] eqn:Ew; [|done]. exfalso.
    assert (Hf : In line (List.filter (is_full board) WIN_LINES)).
    { apply filter_In. split; [by apply list_elem_of_In|].
      unfold is_full. by rewrite Ew. }
    rewrite E in Hf. destruct Hf.
  - intros H. destruct (List.filter _ _) as [|l ls] eqn:E; [done|]. exfalso.
    assert (Hf : In l (List.filter (is_full board) WIN_LINES))
      by (rewrite E; by left).
    apply filter_In in Hf as [Hin Hf]. unfold is_full in Hf.
    destruct (line_winner board l) as [w|] eqn:Ew; [|done].
    apply (H l); [by apply list_elem_of_In|].
    exists w. by apply line_winner_Some.
Qed.

Lemma full_lines_spec board line :
  In line (full_lines board) <-> line ∈ WIN_LINES /\ line_full board line.
Proof.
  unfold full_lines, is_full. rewrite filter_In, list_elem_of_In.
  split; intros [Hin H]; (split; [done|]).
  - destruct (line_winner board line) as [w|] eqn:E; [|done].
    exists w. by apply line_winner_Some.
  - destruct H as [w Hw]. apply line_winner_Some in Hw. by rewrite Hw.
Qed.

(** Marking an empty cell of a board without a full line: every line that
    is full afterwards passes through that cell and is held by the mover. *)
Lemma line_held_after_move board i p line q :
  board !! i = Some None ->
  ~ line_full board line ->
  line_held (<[i := Some p]> board) line q ->
  q = p /\ (line.1.1 = i \/ line.1.2 = i \/ line.2 = i).
Proof.
  intros Hi Hnot Hq. apply lookup_lt_Some in Hi as Hlt.
  destruct line as [[a b] c]. unfold line_held, read in *. simpl in *.
  destruct Hq as (Ha & Hb & Hc).
  destruct (decide (a = i)) as [->|Hna].
  { rewrite list_lookup_insert_eq in Ha by done. split; [congruence | tauto]. }
  destruct (decide (b = i)) as [->|Hnb].
  { rewrite list_lookup_insert_eq in Hb by done. split; [congruence | tauto]. }
  destruct (decide (c = i)) as [->|Hnc].
  { rewrite list_lookup_insert_eq in Hc by done. split; [congruence | tauto]. }
  rewrite list_lookup_insert_ne in Ha, Hb, Hc by done.
  destruct Hnot. by exists q.
Qed.

Lemma status_in_progress_no_full_line s turn :
  status s = IN_PROGRESS turn ->
  forall line, line ∈ WIN_LINES -> ~ line_full (board s) line.
Proof.
  unfold status, computeStatus. intros H. apply first_win_None.
  by destruct (first_win _ _) as [[w l]|].
Qed.

Lemma balanced_marks_le starter s p :
  length (board s) = 9 -> balanced starter s -> marks p (board s) <= 5.
Proof.
  intros Hlen Hbal. pose proof (marks_bound (board s)) as Hb.
  destruct Hbal as [[_ Hm]|[_ Hm]]; destruct starter, p; simpl in Hm; lia.
Qed.

Lemma balanced_move starter s i :
  board s !! i = Some None ->
  balanced starter s ->
  balanced starter
           (mkState (<[i := Some (nextPlayer s)]> (board s))
                    (otherPlayer (nextPlayer s)) (score s)).
Proof.
  intros Hi [[Hn Hm]|[Hn Hm]]; rewrite Hn; [right | left]; simpl.
  - split; [done|].
    rewrite marks_insert_same, marks_insert_other by (done || by destruct starter).
    by rewrite Hm.
  - split; [by destruct starter|].
    rewrite marks_insert_same, marks_insert_other by (done || by destruct starter).
    done.
Qed.

Lemma play_invariant_empty starter sc :
  play_invariant (mkState empty_board starter sc).
Proof.
  split; [reflexivity|]. split.
  - exists starter. left. split; [done|]. by destruct starter.
  - assert (Hnone : forall line, line ∈ WIN_LINES -> ~ line_full empty_board line)
      by (apply full_lines_nil; reflexivity).
    split; [simpl; lia|].
    intros l1 l2 p1 p2 H1 _ Hp1 _. destruct (Hnone l1 H1). by exists p1.
Qed.

Lemma play_invariant_move index s :
  play_invariant s -> play_invariant (handleSquareClick index s).
Proof.
  intros (Hlen & [starter Hbal] & Hfew).
  destruct (handleSquareClick_cases index s) as [->|(turn & Hc & Hs)];
    [exact (conj Hlen (conj (ex_intro _ starter Hbal) Hfew))|].
  rewrite (handleSquareClick_valid _ _ _ Hc Hs). simpl.
  apply read_at_Some in Hc as (_ & _ & Hi).
  pose proof (status_in_progress_no_full_line _ _ Hs) as Hnone.
  pose proof (balanced_move _ _ _ Hi Hbal) as Hbal'.
  set (i := Z.to_nat index) in *. set (p := nextPlayer s) in *.
  set (b' := <[i := Some p]> (board s)) in *.
  assert (Hlen' : length b' = 9) by (unfold b'; by rewrite length_insert).
  assert (Hown : forall l q, l ∈ WIN_LINES -> line_held b' l q -> q = p).
  { intros l q Hin Hq.
    by destruct (line_held_after_move _ _ _ _ _ Hi (Hnone l Hin) Hq). }
  split; [done|]. split; [by exists starter|]. split.
  - unfold full_lines.
    rewrite (filter_ext_in (is_full b') (held_by b' p)).
    + apply held_lines_bound; [done|].
      by apply (balanced_marks_le starter (mkState b' (otherPlayer p) (score s))).
    + intros l Hin. apply list_elem_of_In in Hin. unfold is_full, held_by.
      destruct (line_winner b' l) as [q|] eqn:E;
        [|by rewrite bool_decide_eq_false_2].
      apply line_winner_Some, (Hown _ _ Hin) in E as ->.
      by rewrite bool_decide_eq_true_2.
  - intros l1 l2 p1 p2 H1 H2 Hp1 Hp2.
    rewrite (Hown _ _ H1 Hp1). by rewrite (Hown _ _ H2 Hp2).
Qed.

Lemma reachable_play_invariant s : reachable s -> play_invariant s.
Proof.
  induction 1 as [starter sc|s index _ IH].
  - apply play_invariant_empty.
  - by apply play_invariant_move.
Qed.

Lemma reachable_run_moves (indices : list Z) (s : State) :
  reachable s -> reachable (run (map ApplyMove indices) s).
Proof.
  revert s. induction indices as [|i indices IH]; intros s Hs; simpl; [done|].
  apply IH. by apply reach_move.
Qed.

(** C7, as the claim states it, fails: play reaches a board on which two
    winning lines are fully occupied by one player's mark. *)
Lemma reachable_two_full_lines :
  reachable double_win_state
  /\ board double_win_state
     = [ Some X; Some X; Some X;
         Some X; Some O; Some O;
         Some X; Some O; Some O ]
  /\ full_lines (board double_win_state) = [(0, 1, 2); (0, 3, 6)]
  /\ ~ (forall s, reachable s -> length (full_lines (board s)) <= 1).
Proof.
  assert (Hr : reachable double_win_state)
    by (apply reachable_run_moves, reach_empty).
  split; [exact Hr|]. split; [reflexivity|]. split; [reflexivity|].
  intros H. specialize (H _ Hr). vm_compute in H. lia.
Qed.

(** C7, amended.  On every board that moves alone reach from an empty
    board, at most two of the eight winning lines are fully occupied by a
    single player's mark, and all the fully occupied lines carry the mark
    of the same player. *)
Theorem reachable_at_most_two_full_lines (s : State) :
  reachable s ->
  length (full_lines (board s)) <= 2
  /\ (forall l1 l2 p1 p2,
        l1 ∈ WIN_LINES -> l2 ∈ WIN_LINES ->
        line_held (board s) l1 p1 -> line_held (board s) l2 p2 -> p1 = p2).
Proof.
  intros Hr. by destruct (reachable_play_invariant s Hr) as (_ & _ & Hfew).
Qed.

Lemma reachable_at_most_two_full_lines_witness :
  reachable double_win_state
  /\ length (full_lines (board double_win_state)) <= 2.
Proof.
  assert (Hr : reachable double_win_state)
    by (apply reachable_run_moves, reach_empty).
  split; [exact Hr|].
  exact (proj1 (reachable_at_most_two_full_lines double_win_state Hr)).
Defined.

(** ** The round as a whole *)

Lemma run_moves_invariant (P : State -> Prop) (indices : list Z) (s : State) :
  P s ->
  (forall s' index, P s' -> P (handleSquareClick index s')) ->
  P (run (map ApplyMove indices) s).
Proof.
  intros Hs Hstep. revert s Hs.
  induction indices as [|i indices IH]; intros s Hs; simpl; [done|].
  apply IH. by apply Hstep.
Qed.

Lemma computeStatus_cases board next :
  (exists winner line,
      computeStatus board next = WON winner line
      /\ line ∈ WIN_LINES /\ line_held board line winner)
  \/ ((forall line, line ∈ WIN_LINES -> ~ line_full board line)
      /\ ((computeStatus board next = DRAW
           /\ forall c, c ∈ board -> c <> None)
          \/ (computeStatus board next = IN_PROGRESS next /\ None ∈ board))).
Proof.
  unfold computeStatus.
  destruct (first_win board WIN_LINES) as [[w l]|] eqn:E.
  - left. exists w, l. split; [done|].
    apply first_win_Some in E as (before & after & Eq & _ & Hw).
    split; [|done]. rewrite Eq. apply elem_of_app. right. left.
  - right. split; [by apply first_win_None|].
    destruct (every_non_null board) eqn:En.
    + left. split; [done|]. by apply every_non_null_true.
    + right. split; [done|]. by apply every_non_null_false.
Qed.

(** X1. The three answers of [computeStatus] exclude one another and each
    tells the board: [DRAW] exactly when no winning line is full and no
    cell is empty, [IN_PROGRESS] exactly when no winning line is full and
    some cell is empty, and then with the player it was given. *)
Theorem computeStatus_draw_in_progress_iff (board : list Cell) (next : Player) :
  (computeStatus board next = DRAW
   <-> (forall line, line ∈ WIN_LINES -> ~ line_full board line)
       /\ (forall c, c ∈ board -> c <> None))
  /\ (forall r,
        computeStatus board next = IN_PROGRESS r
        <-> r = next
            /\ (forall line, line ∈ WIN_LINES -> ~ line_full board line)
            /\ None ∈ board).
Proof.
  destruct (computeStatus_cases board next)
    as [(w & l & E & Hin & Hw)|[Hnone [[E Hall]|[E Hsome]]]];
    rewrite E.
  - split; [|intros r]; (split; [done|]).
    + intros [H _]. destruct (H l Hin). by exists w.
    + intros (_ & H & _). destruct (H l Hin). by exists w.
  - split; [done|]. intros r. split; [done|].
    intros (_ & _ & H). by destruct (Hall _ H).
  - split.
    + split; [done|]. intros [_ H]. by destruct (H _ Hsome).
    + intros r. split; [by intros [= ->] | by intros [-> _]].
Qed.

(** X2. Moves never erase or replace a mark: a cell that holds a mark
    holds the same mark after any sequence of clicks. *)
Theorem moves_keep_marks (indices : list Z) (s : State) (j : nat) (p : Player) :
  board s !! j = Some (Some p) ->
  board (run (map ApplyMove indices) s) !! j = Some (Some p).
Proof.
  intros H. apply (run_moves_invariant (fun t => board t !! j = Some (Some p)));
    [done|].
  intros s' index Hj. simpl in Hj |- *.
  destruct (handleSquareClick_cases index s') as [->|(turn & Hc & Hs)]; [done|].
  rewrite (handleSquareClick_valid _ _ _ Hc Hs). simpl.
  apply read_at_Some in Hc as (_ & _ & Hi).
  rewrite list_lookup_insert_ne; [done|].
  intros E. rewrite E in Hi. unfold Cell in *. congruence.
Qed.

Lemma moves_keep_marks_witness :
  board (handleSquareClick 4 initial_state) !! 4 = Some (Some X)
  /\ board (run (map ApplyMove [4; 4; 0; 8]%Z) (handleSquareClick 4 initial_state))
       !! 4 = Some (Some X).
Proof.
  assert (H : board (handleSquareClick 4 initial_state) !! 4 = Some (Some X))
    by reflexivity.
  split; [exact H|].
  exact (moves_keep_marks [4; 4; 0; 8]%Z (handleSquareClick 4 initial_state) 4 X H).
Defined.

Lemma load_effect_frame st s :
  board (load_effect st s) = board s
  /\ nextPlayer (load_effect st s) = nextPlayer s.
Proof.
  by destruct (load_effect_cases st s) as [->|(raw & parsed & _ & _ & ->)].
Qed.

Lemma run_nine_cells (ops : list Op) (s : State) :
  length (board s) = 9 -> length (board (run ops s)) = 9.
Proof.
  revert s. induction ops as [|op ops IH]; intros s H; simpl; [done|].
  apply IH. destruct op as [index|sp| |st]; simpl.
  - destruct (handleSquareClick_cases index s) as [->|(turn & Hc & Hs)]; [done|].
    rewrite (handleSquareClick_valid _ _ _ Hc Hs). simpl.
    by rewrite length_insert.
  - done.
  - done.
  - by rewrite (proj1 (load_effect_frame st s)).
Qed.

(** X3. The board keeps its nine cells through every operation: moves,
    round resets, score resets and score loads, in any order. *)
Theorem board_keeps_nine_cells (ops : list Op) (s : State) :
  length (board s) = 9 -> length (board (run ops s)) = 9.
Proof. apply run_nine_cells. Qed.

Lemma board_keeps_nine_cells_witness :
  length (board initial_state) = 9
  /\ length (board (run [ApplyMove 4; LoadScore (Text negative_record);
                         ApplyMove 12; ResetRound None; ApplyMove 0; ResetAll]
                        initial_state)) = 9.
Proof.
  assert (H : length (board initial_state) = 9) by reflexivity.
  split; [exact H|].
  exact (board_keeps_nine_cells _ initial_state H).
Defined.

(** X4. A round that is won or drawn is over: no sequence of clicks
    changes the board, the next player or the score any more. *)
Theorem finished_round_absorbs_moves (indices : list Z) (s : State) :
  (forall turn, status s <> IN_PROGRESS turn) ->
  run (map ApplyMove indices) s = s.
Proof.
  intros H. induction indices as [|i indices IH]; simpl; [done|].
  rewrite (handleSquareClick_invalid i s); [done | by right].
Qed.

Lemma finished_round_absorbs_moves_witness :
  (forall turn, status (top_row_round zero_score) <> IN_PROGRESS turn)
  /\ run (map ApplyMove [5; 6; 7; 8; 5]%Z) (top_row_round zero_score)
     = top_row_round zero_score.
Proof.
  assert (H : forall turn, status (top_row_round zero_score) <> IN_PROGRESS turn)
    by (intros turn E; vm_compute in E; discriminate E).
  split; [exact H|].
  exact (finished_round_absorbs_moves [5; 6; 7; 8; 5]%Z (top_row_round zero_score) H).
Defined.

Lemma empties_insert board i p :
  board !! i = Some None ->
  S (empties (<[i := Some p]> board)) = empties board.
Proof.
  unfold empties. revert i. induction board as [|c cs IH]; intros [|i] H;
    simpl in *; try discriminate.
  - by injection H as ->.
  - specialize (IH _ H). destruct (bool_decide (c = None)); simpl;
      [f_equal|]; exact IH.
Qed.

(** X5. A click either changes nothing at all or fills exactly one empty
    cell with the mark of the player whose turn it was: one empty cell
    less, one mark more for that player, as many marks as before for the
    other. *)
Theorem click_fills_one_cell_or_nothing (index : Z) (s : State) :
  handleSquareClick index s = s
  \/ (S (empties (board (handleSquareClick index s))) = empties (board s)
      /\ marks (nextPlayer s) (board (handleSquareClick index s))
         = S (marks (nextPlayer s) (board s))
      /\ marks (otherPlayer (nextPlayer s)) (board (handleSquareClick index s))
         = marks (otherPlayer (nextPlayer s)) (board s)
      /\ nextPlayer (handleSquareClick index s) = otherPlayer (nextPlayer s)).
Proof.
  destruct (handleSquareClick_cases index s) as [->|(turn & Hc & Hs)];
    [by left|right].
  rewrite (handleSquareClick_valid _ _ _ Hc Hs). simpl.
  apply read_at_Some in Hc as (_ & _ & Hi).
  split; [by apply empties_insert|]. split; [by apply marks_insert_same|].
  split; [|done]. apply marks_insert_other; [done|].
  by destruct (nextPlayer s).
Qed.

Lemma run_moves_balanced (indices : list Z) (starter : Player) (sc : Score) :
  balanced starter (run (map ApplyMove indices) (mkState empty_board starter sc)).
Proof.
  apply (run_moves_invariant (balanced starter)).
  - left. split; [done|]. by destruct starter.
  - intros s' index Hbal.
    destruct (handleSquareClick_cases index s') as [->|(turn & Hc & Hs)]; [done|].
    rewrite (handleSquareClick_valid _ _ _ Hc Hs).
    apply read_at_Some in Hc as (_ & _ & Hi).
    pose proof (balanced_move _ _ _ Hi Hbal) as Hb.
    destruct Hb as [[Hn Hm]|[Hn Hm]]; [left | right]; simpl in *; by split.
Qed.

(** X6. Turns alternate from the first move of a round: in every state
    that clicks reach from an empty board on which [starter] is to move,
    either it is the starter's turn and both players have as many marks,
    or it is the other player's turn and the starter has one mark more. *)
Theorem marks_balanced_in_play (indices : list Z) (starter : Player) (sc : Score) :
  let s := run (map ApplyMove indices) (mkState empty_board starter sc) in
  (nextPlayer s = starter
   /\ marks starter (board s) = marks (otherPlayer starter) (board s))
  \/ (nextPlayer s = otherPlayer starter
      /\ marks starter (board s) = S (marks (otherPlayer starter) (board s))).
Proof. apply run_moves_balanced. Qed.

(** X7. The winner is the player who moved last: in every state that
    clicks reach from an empty board, a status [WON] names the player who
    is not the next player, so that a new round started with the next
    player is opened by the loser. *)
Theorem winner_moved_last
  (indices : list Z) (starter : Player) (sc : Score)
  (winner : Player) (line : Line) :
  status (run (map ApplyMove indices) (mkState empty_board starter sc))
  = WON winner line ->
  nextPlayer (run (map ApplyMove indices) (mkState empty_board starter sc))
  = otherPlayer winner
  /\ nextPlayer (resetRound None
       (run (map ApplyMove indices) (mkState empty_board starter sc)))
     = otherPlayer winner.
Proof.
  intros H.
  assert (nextPlayer (run (map ApplyMove indices) (mkState empty_board starter sc))
          = otherPlayer winner) as E; [|by split].
  revert winner line H.
  apply (run_moves_invariant
           (fun t => forall w l, status t = WON w l -> nextPlayer t = otherPlayer w)).
  - intros w l H. by destruct starter.
  - intros s' index IH w l H.
    destruct (handleSquareClick_cases index s') as [E|(turn & Hc & Hs)];
      [rewrite E in *; by eapply IH|].
    rewrite (handleSquareClick_valid _ _ _ Hc Hs) in *. simpl.
    apply read_at_Some in Hc as (_ & _ & Hi).
    pose proof (status_in_progress_no_full_line _ _ Hs) as Hnone.
    unfold status in H. simpl in H.
    destruct (computeStatus_cases
                (<[Z.to_nat index := Some (nextPlayer s')]> (board s'))
                (otherPlayer (nextPlayer s')))
      as [(w' & l' & E & Hin & Hw)|[_ [[E _]|[E _]]]];
      rewrite E in H; [|done..].
    injection H as -> ->.
    by destruct (line_held_after_move _ _ _ _ _ Hi (Hnone _ Hin) Hw) as [-> _].
Qed.

Lemma winner_moved_last_witness :
  status (run (map ApplyMove [0; 3; 1; 4; 2]%Z) (mkState empty_board X zero_score))
  = WON X (0, 1, 2)
  /\ nextPlayer (run (map ApplyMove [0; 3; 1; 4; 2]%Z)
                     (mkState empty_board X zero_score)) = O.
Proof.
  assert (H : status (run (map ApplyMove [0; 3; 1; 4; 2]%Z)
                          (mkState empty_board X zero_score))
              = WON X (0, 1, 2)) by reflexivity.
  split; [exact H|].
  exact (proj1 (winner_moved_last [0; 3; 1; 4; 2]%Z X zero_score X (0, 1, 2) H)).
Defined.

(** X8. A win is counted once, and only a win is counted: in every state
    that clicks reach from an empty board with the score [sc], the score is
    [sc] while the round is in progress or drawn; when the round is won it
    is [sc] with the winner's field replaced by the binary64 sum of that
    field and 1, which is exactly one more win when the field is a whole
    number from 0 to 2^53 - 1, and the other field is as in [sc]. *)
Theorem score_follows_status (indices : list Z) (starter : Player) (sc : Score) :
  let s := run (map ApplyMove indices) (mkState empty_board starter sc) in
  match status s with
  | WON winner _ =>
      score s = score_with sc winner (plus_one (score_get sc winner))
      /\ score_get (score s) (otherPlayer winner)
         = score_get sc (otherPlayer winner)
      /\ (forall n : Z,
             (0 <= n < 2 ^ 53)%Z ->
             score_get sc winner = whole n ->
             score_get (score s) winner = whole (n + 1))
  | IN_PROGRESS _ | DRAW => score s = sc
  end.
Proof.
  simpl.
  assert (H : score (run (map ApplyMove indices) (mkState empty_board starter sc))
              = score_after
                  (status (run (map ApplyMove indices)
                               (mkState empty_board starter sc))) sc).
  { apply (run_moves_invariant
             (fun t => score t = score_after (status t) sc)); [done|].
    intros s' index IH.
    destruct (handleSquareClick_cases index s') as [->|(turn & Hc & Hs)]; [done|].
    rewrite Hs in IH. simpl in IH.
    rewrite (handleSquareClick_valid _ _ _ Hc Hs). unfold status. simpl.
    by rewrite IH. }
  rewrite H. destruct (status _) as [r|[] l|]; simpl; try done;
    (split; [done|split; [done|]]); intros n Hn ->; by apply plus_one_whole.
Qed.

(** ** Decimal numerals *)

Lemma digits_loop_value fuel n acc :
  (n < 10 ^ N.of_nat fuel)%N ->
  fold_left (fun a d => (10 * a + d)%N) (digits_loop fuel n acc) 0%N
  = fold_left (fun a d => (10 * a + d)%N) acc n.
Proof.
  revert n acc. induction fuel as [|fuel IH]; intros n acc Hn.
  - simpl in *. assert (n = 0%N) as -> by lia. done.
  - simpl. destruct (N.ltb_spec n 10) as [Hlt|Hge]; [done|].
    rewrite IH.
    + simpl. f_equal. pose proof (N.div_mod n 10). lia.
    + rewrite Nat2N.inj_succ, N.pow_succ_r' in Hn.
      apply N.Div0.div_lt_upper_bound. lia.
Qed.

Lemma digits_loop_small fuel n acc :
  Forall (fun d => (d < 10)%N) acc ->
  Forall (fun d => (d < 10)%N) (digits_loop fuel n acc).
Proof.
  revert n acc. induction fuel as [|fuel IH]; intros n acc Hacc; simpl; [done|].
  destruct (N.ltb_spec n 10) as [Hlt|Hge]; [by constructor|].
  apply IH. constructor; [|done]. apply N.mod_lt. lia.
Qed.

Lemma digits_loop_head fuel n acc :
  (n < 10 ^ N.of_nat fuel)%N -> n <> 0%N ->
  exists d more, digits_loop fuel n acc = d :: more /\ d <> 0%N.
Proof.
  revert n acc. induction fuel as [|fuel IH]; intros n acc Hn Hnz.
  - simpl in Hn. lia.
  - simpl. destruct (N.ltb_spec n 10) as [Hlt|Hge]; [by eauto|].
    apply IH.
    + rewrite Nat2N.inj_succ, N.pow_succ_r' in Hn.
      apply N.Div0.div_lt_upper_bound. lia.
    + intros E. apply N.div_small_iff in E; lia.
Qed.

Lemma decimal_digits_fuel n :
  (n < 10 ^ N.of_nat (S (N.to_nat (N.log2 n))))%N.
Proof.
  rewrite Nat2N.inj_succ, N2Nat.id.
  destruct (N.eq_dec n 0%N) as [->|Hn]; [done|].
  eapply N.lt_le_trans; [apply N.log2_spec; lia|].
  apply N.pow_le_mono_l. lia.
Qed.

Lemma decimal_digits_value n :
  fold_left (fun a d => (10 * a + d)%N) (decimal_digits n) 0%N = n.
Proof.
  unfold decimal_digits. rewrite digits_loop_value; [done|].
  apply decimal_digits_fuel.
Qed.

Lemma decimal_digits_small n : Forall (fun d => (d < 10)%N) (decimal_digits n).
Proof. by apply digits_loop_small. Qed.

Lemma decimal_digits_head n :
  exists d more,
    decimal_digits n = d :: more /\ (d = 0%N -> more = [] /\ n = 0%N).
Proof.
  destruct (N.eq_dec n 0%N) as [->|Hn].
  - exists 0%N, []. by split.
  - destruct (digits_loop_head _ n [] (decimal_digits_fuel n) Hn)
      as (d & more & E & Hd).
    exists d, more. split; [done|]. intros ->. done.
Qed.

(** ** Reading back what the saver writes *)

Lemma take_digits_numeral ds c rest :
  Forall (fun d => (d < 10)%N) ds ->
  JSON.is_digit c = false ->
  JSON.take_digits (map (fun d => (48 + d)%N) ds ++ c :: rest) = (ds, c :: rest).
Proof.
  intros Hds Hc. induction Hds as [|d ds Hd _ IH]; simpl.
  - by rewrite Hc.
  - assert (JSON.is_digit (48 + d) = true) as ->.
    { unfold JSON.is_digit. apply andb_true_iff. split; apply N.leb_le; lia. }
    rewrite IH. f_equal. f_equal. lia.
Qed.

Lemma decimal_whole m :
  (Z.abs m <= 2 ^ 53)%Z -> JSON.decimal m 0 = whole m.
Proof.
  intros Hm. unfold JSON.decimal.
  change (0 <=? 0)%Z with true. cbv iota.
  rewrite Z.pow_0_r, Z.mul_1_r.
  apply (round64_double (m * 2 ^ 1074)). by apply whole_double.
Qed.

Lemma parse_number_integer z c rest :
  ends_number c ->
  JSON.parse_number (integer_text z ++ c :: rest)
  = Some (JSON.decimal z 0, c :: rest).
Proof.
  intros (Hdig & H46 & H101 & H69).
  apply N.eqb_neq in H46, H101, H69.
  destruct (decimal_digits_head (Z.abs_N z)) as (d & more & E & Hd).
  pose proof (decimal_digits_small (Z.abs_N z)) as Hs.
  pose proof (decimal_digits_value (Z.abs_N z)) as Hv.
  pose proof (take_digits_numeral _ c rest Hs Hdig) as Ht.
  assert (Hlead : ((d =? 0)%N && negb (bool_decide (more = []))) = false).
  { destruct (N.eqb_spec d 0) as [Hz|Hz]; [|done].
    destruct (Hd Hz) as [-> _]. done. }
  assert (Hd10 : (d < 10)%N) by (rewrite E in Hs; by inversion Hs).
  unfold integer_text, JSON.parse_number.
  destruct (Z.ltb_spec z 0) as [Hneg|Hpos].
  - change (js "-") with [45%N]. simpl. rewrite Ht, E, Hlead, H46. simpl.
    rewrite H101, H69. simpl. rewrite app_nil_r.
    unfold JSON.digits_value. rewrite <- E, Hv.
    by replace (- Z.of_N (Z.abs_N z))%Z with z by lia.
  - rewrite E in Ht, Hv |- *. cbn [map app] in Ht |- *.
    assert (((48 + d) =? 45)%N = false) as -> by (apply N.eqb_neq; lia).
    rewrite Ht, Hlead, H46. simpl. rewrite H101, H69. simpl.
    rewrite app_nil_r. unfold JSON.digits_value.
    rewrite Hv.
    by replace (Z.of_N (Z.abs_N z)) with z by lia.
Qed.

Lemma integer_text_head z :
  exists c r,
    integer_text z = c :: r /\ (c = 45 \/ (48 <= c /\ c <= 57))%N.
Proof.
  unfold integer_text. destruct (Z.ltb z 0).
  - eexists _, _. split; [reflexivity|]. by left.
  - destruct (decimal_digits_head (Z.abs_N z)) as (d & more & E & _).
    pose proof (decimal_digits_small (Z.abs_N z)) as Hs. rewrite E in *.
    inversion Hs; subst. eexists _, _. split; [reflexivity|]. right. lia.
Qed.

Lemma parse_value_number fuel c r :
  (c = 45 \/ (48 <= c /\ c <= 57))%N ->
  JSON.parse_value (S fuel) (c :: r)
  = x ← JSON.parse_number (c :: r); Some (JNum x.1, x.2).
Proof.
  intros Hc.
  assert (Hneq : forall k : N,
             In k [9; 10; 13; 32; 123; 91; quote; 116; 102; 110]%N ->
             (c =? k)%N = false).
  { intros k Hk. apply N.eqb_neq. unfold quote in Hk. simpl in Hk.
    intuition lia. }
  cbn [JSON.parse_value JSON.skip_ws]. unfold JSON.is_ws.
  rewrite !Hneq by (simpl; tauto). cbn [orb].
  by rewrite !Hneq by (simpl; tauto).
Qed.

(** The text that [JSON.stringify] gives for a score of two integers. *)
Lemma stringify_number_whole a :
  (Z.abs a <= 2 ^ 53)%Z -> stringify_number (whole a) = Some (integer_text a).
Proof.
  intros Ha. unfold stringify_number, whole.
  rewrite Z.mod_mul, Z.div_mul by (apply Z.pow_nonzero; lia).
  apply Z.leb_le in Ha. by rewrite Ha.
Qed.

Lemma stringify_score_integers a b :
  (Z.abs a <= 2 ^ 53)%Z -> (Z.abs b <= 2 ^ 53)%Z ->
  stringify_score (mkScore (whole a) (whole b))
  = Some (jq "{'X':" ++ integer_text a ++ jq ",'O':" ++ integer_text b ++ js "}").
Proof.
  intros Ha Hb. unfold stringify_score. cbn [score_X score_O].
  by rewrite (stringify_number_whole a Ha), (stringify_number_whole b Hb).
Qed.

Lemma parse_value_object fuel r :
  JSON.parse_value (S fuel) (123 :: quote :: r)%N
  = JSON.parse_members fuel (quote :: r) [].
Proof. reflexivity. Qed.

Lemma parse_members_key fuel (k : N) s acc :
  (32 <= k)%N -> k <> quote -> k <> 92%N ->
  JSON.parse_members (S fuel) (quote :: k :: quote :: 58 :: s)%N acc
  = x ← JSON.parse_value fuel s;
    match JSON.skip_ws x.2 with
    | [] => None
    | c :: rest =>
        if (c =? 44)%N then JSON.parse_members fuel rest (([k], x.1) :: acc)
        else if (c =? 125)%N then Some (JObj (rev (([k], x.1) :: acc)), rest)
        else None
    end.
Proof.
  intros H32 Hq H92. apply N.eqb_neq in Hq, H92.
  assert (Hlt : (k <? 32)%N = false) by (apply N.ltb_ge; lia).
  cbn [JSON.parse_members JSON.skip_ws JSON.is_ws N.eqb Pos.eqb orb quote].
  change 34%N with quote. unfold JSON.parse_string at 1.
  rewrite Hq, H92, Hlt. fold JSON.parse_string.
  reflexivity.
Qed.

Lemma parse_saved_text a b :
  (Z.abs a <= 2 ^ 53)%Z -> (Z.abs b <= 2 ^ 53)%Z ->
  JSON.parse (jq "{'X':" ++ integer_text a ++ jq ",'O':" ++ integer_text b
              ++ js "}")
  = Returns (JObj [(js "X", JNum (whole a)); (js "O", JNum (whole b))]).
Proof.
  intros Ha Hb. rewrite <- (decimal_whole a Ha), <- (decimal_whole b Hb).
  unfold JSON.parse.
  change (jq "{'X':" ++ integer_text a ++ jq ",'O':" ++ integer_text b ++ js "}")
    with (123 :: quote :: 88 :: quote :: 58 ::
          integer_text a ++ 44 :: quote :: 79 :: quote :: 58 ::
          integer_text b ++ [125])%N.
  set (text := (123 :: _)%N).
  destruct (2 * length text + 2) as [|[|[|[|fuel]]]] eqn:E;
    try (subst text; simpl in E; lia).
  subst text. clear E.
  destruct (integer_text_head a) as (ca & ra & Ea & Hca).
  destruct (integer_text_head b) as (cb & rb & Eb & Hcb).
  assert (Hcomma : ends_number 44) by (by repeat split).
  assert (Hbrace : ends_number 125) by (by repeat split).
  pose proof (parse_number_integer a 44
                (quote :: 79 :: quote :: 58 :: integer_text b ++ [125])%N
                Hcomma) as Pa.
  pose proof (parse_number_integer b 125 [] Hbrace) as Pb.
  rewrite Ea in Pa |- *. rewrite Eb in Pa, Pb |- *.
  cbn [app] in Pa, Pb |- *.
  rewrite parse_value_object, parse_members_key by (unfold quote; lia).
  rewrite parse_value_number, Pa by done.
  cbn [mbind option_bind fst snd JSON.skip_ws JSON.is_ws N.eqb Pos.eqb orb].
  rewrite parse_members_key by (unfold quote; lia).
  rewrite parse_value_number, Pb by done.
  reflexivity.
Qed.

Lemma load_effect_object raw members s :
  JSON.parse raw = Returns (JObj members) ->
  load_effect (Text raw) s
  = setScore (fun _ => mkScore (number_or_zero (last_member members (js "X")))
                               (number_or_zero (last_member members (js "O")))) s.
Proof.
  intros H. destruct raw as [|c raw]; [discriminate|].
  unfold load_effect, load_body. cbn [getItem mbind outcome_bind].
  by rewrite H.
Qed.

(** X9. What the saver writes, the loader reads back: for a score of two
    whole numbers of magnitude up to 2^53, the range in which every whole
    number is a binary64 value and prints as its own decimal numeral, the
    saving effect on a writable store leaves a text from which the loading
    effect restores exactly that score, on mount and from any state; on a
    store that refuses the write the saving effect changes nothing. *)
Theorem saved_score_loads_back (a b : Z) (st : stored) (s : State) :
  (Z.abs a <= 2 ^ 53)%Z -> (Z.abs b <= 2 ^ 53)%Z ->
  exists text,
    save_effect true (mkScore (whole a) (whole b)) st = Some (Text text)
    /\ loadScore (Text text) = mkScore (whole a) (whole b)
    /\ score (load_effect (Text text) s) = mkScore (whole a) (whole b)
    /\ save_effect false (mkScore (whole a) (whole b)) st = Some st.
Proof.
  intros Ha Hb.
  exists (jq "{'X':" ++ integer_text a ++ jq ",'O':" ++ integer_text b ++ js "}").
  unfold save_effect. rewrite (stringify_score_integers a b Ha Hb).
  cbn [mbind option_bind].
  split; [done|]. split; [|split; [|done]].
  - unfold loadScore.
    by rewrite (load_effect_object _ _ _ (parse_saved_text a b Ha Hb)).
  - by rewrite (load_effect_object _ _ _ (parse_saved_text a b Ha Hb)).
Qed.

Lemma saved_score_loads_back_witness :
  (Z.abs 12 <= 2 ^ 53)%Z /\ (Z.abs 7 <= 2 ^ 53)%Z
  /\ exists text,
      save_effect true (mkScore (whole 12) (whole 7)) Absent
      = Some (Text text)
      /\ loadScore (Text text) = mkScore (whole 12) (whole 7)
      /\ score (load_effect (Text text) (top_row_round zero_score))
         = mkScore (whole 12) (whole 7)
      /\ save_effect false (mkScore (whole 12) (whole 7)) Absent
         = Some Absent.
Proof.
  assert (Ha : (Z.abs 12 <= 2 ^ 53)%Z) by (vm_compute; discriminate).
  assert (Hb : (Z.abs 7 <= 2 ^ 53)%Z) by (vm_compute; discriminate).
  split; [exact Ha|]. split; [exact Hb|].
  exact (saved_score_loads_back 12 7 Absent (top_row_round zero_score) Ha Hb).
Defined.

Lemma zero_count : is_count (Finite 0).
Proof. split; [by exists 0%nat|]. split; reflexivity. Qed.

(** X10. Win counts stay whole: when both scores are natural numbers, they
    still are after any sequence of moves, round resets and score resets;
    only a score load can bring anything else. *)
Theorem scores_stay_counts (ops : list Op) (s : State) :
  Forall (fun op => forall st, op <> LoadScore st) ops ->
  is_count (score_X (score s)) /\ is_count (score_O (score s)) ->
  is_count (score_X (score (run ops s)))
  /\ is_count (score_O (score (run ops s))).
Proof.
  revert s. induction ops as [|op ops IH]; intros s Hops Hs; simpl; [done|].
  apply Forall_cons in Hops as [Hop Hops]. apply IH; [done|].
  destruct Hs as [HX HO]. destruct op as [index|sp| |st]; simpl.
  - destruct (handleSquareClick_cases index s) as [->|(turn & Hc & Hst)]; [done|].
    rewrite (handleSquareClick_valid _ _ _ Hc Hst). simpl.
    destruct (computeStatus _ _) as [r|[] l|]; simpl; try done;
      split; try done; by apply plus_one_count.
  - done.
  - split; apply zero_count.
  - by destruct (Hop st).
Qed.

Lemma scores_stay_counts_witness :
  Forall (fun op => forall st, op <> LoadScore st)
         [ApplyMove 0; ApplyMove 3; ApplyMove 1; ApplyMove 4; ApplyMove 2;
          ResetRound None]
  /\ (is_count (score_X (score initial_state))
      /\ is_count (score_O (score initial_state)))
  /\ is_count (score_X (score (run [ApplyMove 0; ApplyMove 3; ApplyMove 1;
                                    ApplyMove 4; ApplyMove 2; ResetRound None]
                                   initial_state))).
Proof.
  assert (H : Forall (fun op => forall st, op <> LoadScore st)
                [ApplyMove 0; ApplyMove 3; ApplyMove 1; ApplyMove 4; ApplyMove 2;
                 ResetRound None])
    by (repeat constructor; discriminate).
  assert (H0 : is_count (score_X (score initial_state))
               /\ is_count (score_O (score initial_state)))
    by (split; apply zero_count).
  split; [exact H|]. split; [exact H0|].
  exact (proj1 (scores_stay_counts _ initial_state H H0)).
Defined.

(** ** What is rendered against what the handlers do *)

Lemma renderBoard_lookup s i sq :
  renderBoard s !! i = Some sq <->
  exists cell, board s !! i = Some cell /\ sq = renderSquare s i cell.
Proof.
  unfold renderBoard. rewrite list_lookup_imap.
  destruct (board s !! i) as [cell|]; simpl; split.
  - intros [= <-]. by exists cell.
  - by intros (c & [= <-] & ->).
  - done.
  - by intros (c & ? & _).
Qed.

Lemma read_at_of_nat board i : read_at board (Z.of_nat i) = board !! i.
Proof.
  unfold read_at, read. destruct (Z.ltb_spec (Z.of_nat i) 0); [lia|].
  by rewrite Nat2Z.id.
Qed.

(** X11. The squares rendered disabled are exactly those on which a click
    does nothing: a square is disabled if and only if
    [handleSquareClick] on its index leaves the state as it is. *)
Theorem disabled_iff_click_ignored (s : State) (i : nat) (sq : Square) :
  renderBoard s !! i = Some sq ->
  isDisabled sq = true <-> handleSquareClick (Z.of_nat i) s = s.
Proof.
  intros H. apply renderBoard_lookup in H as (cell & Hcell & ->). simpl.
  split.
  - intros Hd. apply handleSquareClick_invalid.
    apply orb_true_iff in Hd as [Hd|Hd].
    + left. rewrite read_at_of_nat, Hcell. apply bool_decide_eq_true in Hd.
      by intros [= ->].
    + right. intros turn E. by rewrite E in Hd.
  - intros E. destruct cell as [p|]; [done|]. simpl.
    destruct (status s) as [turn| |] eqn:Hs; [|done..]. exfalso.
    rewrite <- read_at_of_nat in Hcell.
    rewrite (handleSquareClick_valid _ _ _ Hcell Hs) in E.
    apply (f_equal (fun t => board t !! i)) in E. simpl in E.
    rewrite Nat2Z.id, read_at_of_nat in *.
    rewrite list_lookup_insert_eq in E by (by eapply lookup_lt_Some).
    unfold Cell in *. congruence.
Qed.

Lemma disabled_iff_click_ignored_witness :
  renderBoard (handleSquareClick 4 initial_state) !! 4
  = Some (renderSquare (handleSquareClick 4 initial_state) 4 (Some X))
  /\ (isDisabled (renderSquare (handleSquareClick 4 initial_state) 4 (Some X))
      = true
      <-> handleSquareClick 4 (handleSquareClick 4 initial_state)
          = handleSquareClick 4 initial_state).
Proof.
  assert (H : renderBoard (handleSquareClick 4 initial_state) !! 4
              = Some (renderSquare (handleSquareClick 4 initial_state) 4 (Some X)))
    by reflexivity.
  split; [exact H|].
  exact (disabled_iff_click_ignored (handleSquareClick 4 initial_state) 4 _ H).
Defined.

(** X12. The label of an empty square names the player whose mark a click
    would place: it ends in [Place p.] with [p] the next player, whatever
    the status, and when the square is enabled a click writes the mark of
    that [p] into it. *)
Theorem label_announces_mark (s : State) (i : nat) (sq : Square) :
  renderBoard s !! i = Some sq ->
  board s !! i = Some None ->
  label sq = squareLabel (Z.of_nat i) ++ js ": empty. Place "
             ++ player_text (nextPlayer s) ++ js "."
  /\ mark sq = []
  /\ (isDisabled sq = false ->
      board (handleSquareClick (Z.of_nat i) s) !! i = Some (Some (nextPlayer s))).
Proof.
  intros H Hcell. apply renderBoard_lookup in H as (cell & Hcell' & ->).
  assert (cell = None) as -> by (unfold Cell in *; congruence). simpl.
  destruct (status s) as [turn| |] eqn:Hs; try done.
  pose proof (status_in_progress_turn _ _ Hs) as ->.
  split; [done|]. split; [done|]. intros _.
  rewrite <- read_at_of_nat in Hcell.
  rewrite (handleSquareClick_valid _ _ _ Hcell Hs). simpl.
  rewrite Nat2Z.id, read_at_of_nat in *.
  apply list_lookup_insert_eq. by eapply lookup_lt_Some.
Qed.

Lemma label_announces_mark_witness :
  renderBoard initial_state !! 4 = Some (renderSquare initial_state 4 None)
  /\ board initial_state !! 4 = Some None
  /\ label (renderSquare initial_state 4 None)
     = js "Row 2, Column 2: empty. Place X.".
Proof.
  assert (H : renderBoard initial_state !! 4
              = Some (renderSquare initial_state 4 None)) by reflexivity.
  assert (Hc : board initial_state !! 4 = Some None) by reflexivity.
  split; [exact H|]. split; [exact Hc|].
  exact (proj1 (label_announces_mark initial_state 4 _ H Hc)).
Defined.

Lemma win_line_cells_distinct line :
  line ∈ WIN_LINES -> NoDup [line.1.1; line.1.2; line.2].
Proof.
  intros H. apply list_elem_of_In in H. simpl in H.
  destruct H as [<-|[<-|[<-|[<-|[<-|[<-|[<-|[<-|[]]]]]]]]];
    simpl; apply NoDup_ListNoDup; repeat constructor; simpl; intuition discriminate.
Qed.

Lemma winningSet_elem i winner a b c :
  i ∈ winningSet (WON winner (a, b, c)) <-> i = a \/ i = b \/ i = c.
Proof.
  cbn [winningSet].
  rewrite elem_of_list_to_set, !elem_of_cons, elem_of_nil. tauto.
Qed.

Lemma status_won_line_held s winner line :
  status s = WON winner line ->
  line ∈ WIN_LINES /\ line_held (board s) line winner.
Proof.
  intros E. unfold status in E.
  destruct (computeStatus_cases (board s) (nextPlayer s))
    as [(w' & l' & E' & Hin & Hw)|[_ [[E' _]|[E' _]]]];
    rewrite E' in E; [|done..].
  by injection E as <- <-.
Qed.

Lemma line_cell_holds_winner s winner a b c i :
  status s = WON winner (a, b, c) ->
  i = a \/ i = b \/ i = c ->
  board s !! i = Some (Some winner).
Proof.
  intros E Hi. destruct (status_won_line_held _ _ _ E) as [_ (Ha & Hb & Hc)].
  unfold read in *. simpl in *. by destruct Hi as [->|[->| ->]].
Qed.

(** X13. The highlight follows the winning line: a square is highlighted
    exactly when the status is [WON] and its index is one of the three
    cells of the winning line; a highlighted square holds the winner's
    mark and is disabled; in a won round exactly three cells are in the
    highlighted set, and in any other status none. *)
Theorem highlight_is_winning_line (s : State) :
  (forall i sq,
      renderBoard s !! i = Some sq ->
      (isWinning sq = true
       <-> exists winner a b c,
            status s = WON winner (a, b, c) /\ (i = a \/ i = b \/ i = c))
      /\ (isWinning sq = true ->
          exists winner line,
            status s = WON winner line
            /\ board s !! i = Some (Some winner)
            /\ mark sq = player_text winner
            /\ isDisabled sq = true))
  /\ (forall winner line,
        status s = WON winner line ->
        size (winningSet (status s)) = 3
        /\ forall i, i ∈ winningSet (status s) ->
                     exists sq, renderBoard s !! i = Some sq
                                /\ isWinning sq = true)
  /\ ((forall winner line, status s <> WON winner line) ->
      winningSet (status s) = ∅).
Proof.
  split; [|split].
  - intros i sq H. apply renderBoard_lookup in H as (cell & Hcell & ->). simpl.
    assert (Hiff : bool_decide (i ∈ winningSet (status s)) = true
                   <-> exists winner a b c,
                        status s = WON winner (a, b, c)
                        /\ (i = a \/ i = b \/ i = c)).
    { rewrite bool_decide_eq_true. split.
      - intros Hi. destruct (status s) as [r|w [[a b] c]|];
          [by apply elem_of_empty in Hi| |by apply elem_of_empty in Hi].
        exists w, a, b, c. split; [done|]. by apply winningSet_elem in Hi.
      - intros (w & a & b & c & E & Hi). rewrite E. by apply winningSet_elem. }
    split; [done|]. intros Hw. apply Hiff in Hw as (w & a & b & c & E & Hi).
    exists w, (a, b, c). split; [done|].
    pose proof (line_cell_holds_winner _ _ _ _ _ _ E Hi) as Hc.
    assert (cell = Some w) as -> by (unfold Cell in *; congruence).
    rewrite E. by repeat split.
  - intros w [[a b] c] E. split.
    + destruct (status_won_line_held _ _ _ E) as [Hin _].
      rewrite E. cbn [winningSet]. rewrite size_list_to_set; [done|].
      by apply (win_line_cells_distinct (a, b, c)).
    + intros i Hi. rewrite E in Hi. apply winningSet_elem in Hi.
      exists (renderSquare s i (Some w)). split.
      * apply renderBoard_lookup. exists (Some w). split; [|done].
        by apply (line_cell_holds_winner _ _ _ _ _ _ E Hi).
      * simpl. rewrite E. by apply bool_decide_eq_true, winningSet_elem.
  - intros H. destruct (status s) as [r|w l|] eqn:E; [done| |done].
    by destruct (H w l).
Qed.

Lemma highlight_is_winning_line_witness :
  status (top_row_round zero_score) = WON X (0, 1, 2)
  /\ size (winningSet (status (top_row_round zero_score))) = 3.
Proof.
  assert (H : status (top_row_round zero_score) = WON X (0, 1, 2))
    by reflexivity.
  split; [exact H|].
  exact (proj1 (proj1 (proj2 (highlight_is_winning_line
                                (top_row_round zero_score))) X (0, 1, 2) H)).
Defined.

(** ** The texts *)

(** X14. The status line tells the outcome: two statuses get the same
    status text exactly when they are of the same kind and name the same
    player, and the same subtitle exactly when they are of the same kind
    (the winning line is not part of either text). *)
Theorem status_texts_tell_outcome (st1 st2 : GameStatus) :
  (getStatusText st1 = getStatusText st2
   <-> match st1, st2 with
       | IN_PROGRESS p, IN_PROGRESS q => p = q
       | WON p _, WON q _ => p = q
       | DRAW, DRAW => True
       | _, _ => False
       end)
  /\ (getSubtitleText st1 = getSubtitleText st2
      <-> match st1, st2 with
          | IN_PROGRESS _, IN_PROGRESS _ => True
          | WON _ _, WON _ _ => True
          | DRAW, DRAW => True
          | _, _ => False
          end).
Proof.
  destruct st1 as [[]|[] l1|], st2 as [[]|[] l2|];
    split; split; intros H; try done; try discriminate H.
Qed.

(** X15. The nine squares are labelled by row and column: for an index
    from 0 to 8 the label reads [Row r, Column c] with [r] and [c] from 1
    to 3 and the index equal to 3 (r - 1) + (c - 1), and two of the nine
    squares never share a label. *)
Theorem squareLabel_rows_and_columns (i : Z) :
  (0 <= i < 9)%Z ->
  exists r c : Z,
    (1 <= r <= 3)%Z /\ (1 <= c <= 3)%Z
    /\ i = (3 * (r - 1) + (c - 1))%Z
    /\ squareLabel i
       = js "Row " ++ integer_text r ++ js ", Column " ++ integer_text c
    /\ forall j, (0 <= j < 9)%Z -> squareLabel j = squareLabel i -> j = i.
Proof.
  intros Hi. exists (i / 3 + 1)%Z, (Z.rem i 3 + 1)%Z.
  assert (Hcases : forall k, (0 <= k < 9)%Z ->
            In k [0; 1; 2; 3; 4; 5; 6; 7; 8]%Z) by (intros k Hk; simpl; lia).
  apply Hcases in Hi as Hin. simpl in Hin.
  destruct Hin as [<-|[<-|[<-|[<-|[<-|[<-|[<-|[<-|[<-|[]]]]]]]]]];
    (split; [done|]); (split; [done|]); (split; [done|]); (split; [done|]);
    intros j Hj Hlab; apply Hcases in Hj; simpl in Hj;
    destruct Hj as [<-|[<-|[<-|[<-|[<-|[<-|[<-|[<-|[<-|[]]]]]]]]]];
    first [reflexivity | (vm_compute in Hlab; discriminate Hlab)].
Qed.

Lemma squareLabel_rows_and_columns_witness :
  (0 <= 5 < 9)%Z
  /\ exists r c : Z,
      (1 <= r <= 3)%Z /\ (1 <= c <= 3)%Z
      /\ 5%Z = (3 * (r - 1) + (c - 1))%Z
      /\ squareLabel 5
         = js "Row " ++ integer_text r ++ js ", Column " ++ integer_text c
      /\ forall j, (0 <= j < 9)%Z -> squareLabel j = squareLabel 5 -> j = 5%Z.
Proof.
  assert (H : (0 <= 5 < 9)%Z) by lia.
  split; [exact H|]. exact (squareLabel_rows_and_columns 5 H).
Defined.

(** ** Resets and loads *)

(** X16. A reset always opens a playable round: after [resetRound] the
    status is [IN_PROGRESS] for the starting player and the nine squares
    are rendered enabled, empty and without highlight; [resetAll] brings
    back the state of the mounted component, whatever the state was. *)
Theorem resets_open_a_playable_round (s : State) (startingPlayer : option Player) :
  status (resetRound startingPlayer s)
  = IN_PROGRESS (default (nextPlayer s) startingPlayer)
  /\ length (renderBoard (resetRound startingPlayer s)) = 9
  /\ Forall (fun sq => isDisabled sq = false /\ isWinning sq = false
                       /\ mark sq = [])
            (renderBoard (resetRound startingPlayer s))
  /\ resetAll s = initial_state.
Proof.
  split; [done|]. split; [done|]. split; [|done].
  repeat constructor.
Qed.

(** X17. A score load touches nothing but the score, and loading the same
    store twice is loading it once. *)
Theorem load_effect_only_score (st : stored) (s : State) :
  board (load_effect st s) = board s
  /\ nextPlayer (load_effect st s) = nextPlayer s
  /\ status (load_effect st s) = status s
  /\ load_effect st (load_effect st s) = load_effect st s.
Proof.
  destruct (load_effect_frame st s) as [Hb Hn].
  split; [done|]. split; [done|]. split; [unfold status; by rewrite Hb, Hn|].
  destruct (load_effect_cases st s) as [E|(raw & parsed & -> & Hp & E)].
  - by rewrite !E.
  - destruct (load_effect_cases (Text raw) (load_effect (Text raw) s))
      as [E'|(raw' & parsed' & [= <-] & Hp' & E')]; [done|].
    rewrite E', E. rewrite Hp in Hp'. by injection Hp' as <-.
Qed.

Lemma marks_full_board board :
  (forall c, c ∈ board -> c <> None) ->
  marks X board + marks O board = length board.
Proof.
  unfold marks. induction board as [|[[]|] cs IH]; intros H; simpl.
  - done.
  - rewrite <- IH; [lia|]. intros c Hc. apply H. by right.
  - rewrite <- IH; [lia|]. intros c Hc. apply H. by right.
  - destruct (H None); [left|done].
Qed.

(** X18. A draw comes with the ninth move, which is the starter's: in
    every drawn state that clicks reach from an empty board on which
    [starter] is to move, the starter holds five cells and the other
    player four, and the other player is the next player. *)
Theorem draw_after_nine_moves
  (indices : list Z) (starter : Player) (sc : Score) :
  status (run (map ApplyMove indices) (mkState empty_board starter sc)) = DRAW ->
  marks starter
        (board (run (map ApplyMove indices) (mkState empty_board starter sc))) = 5
  /\ marks (otherPlayer starter)
           (board (run (map ApplyMove indices) (mkState empty_board starter sc)))
     = 4
  /\ nextPlayer (run (map ApplyMove indices) (mkState empty_board starter sc))
     = otherPlayer starter.
Proof.
  set (s := run (map ApplyMove indices) (mkState empty_board starter sc)).
  intros Hd.
  pose proof (run_moves_balanced indices starter sc) as Hbal. fold s in Hbal.
  assert (Hlen : length (board s) = 9) by (by apply run_nine_cells).
  assert (Hfull : forall c, c ∈ board s -> c <> None).
  { unfold status in Hd.
    destruct (computeStatus_cases (board s) (nextPlayer s))
      as [(w & l & E & _)|[_ [[_ H]|[E _]]]]; [|done|]; by rewrite E in Hd. }
  pose proof (marks_full_board _ Hfull) as Hm. rewrite Hlen in Hm.
  destruct Hbal as [[Hn Hb]|[Hn Hb]]; destruct starter; simpl in *;
    repeat split; (lia || done).
Qed.

Lemma draw_after_nine_moves_witness :
  status (run (map ApplyMove [0; 1; 2; 4; 3; 5; 7; 6; 8]%Z)
              (mkState empty_board X zero_score)) = DRAW
  /\ marks X (board (run (map ApplyMove [0; 1; 2; 4; 3; 5; 7; 6; 8]%Z)
                         (mkState empty_board X zero_score))) = 5.
Proof.
  assert (H : status (run (map ApplyMove [0; 1; 2; 4; 3; 5; 7; 6; 8]%Z)
                          (mkState empty_board X zero_score)) = DRAW)
    by reflexivity.
  split; [exact H|].
  exact (proj1 (draw_after_nine_moves [0; 1; 2; 4; 3; 5; 7; 6; 8]%Z X zero_score H)).
Defined.
